(** * Token rendering and segmentation engine of [local/test_soniox_transcription.py]

    A shallow embedding of the pure functions that turn the token array of a
    finished transcription into segments, a plain transcript, a timestamped
    transcript and an SRT document:

      - [token_time_bounds]
      - [group_tokens_by_speaker]
      - [render_tokens]
      - [render_tokens_with_timestamps]
      - [tokens_to_srt]

    Python [int] is unbounded and is modelled by [Z].  A Python [str] is a
    sequence of Unicode code points and is modelled by a list of code points,
    so that [len] is [length] and [+] is [++].  A token is the dictionary
    [{text, speaker?, language?, start_ms?, end_ms?, duration_ms?}]; the
    result of [token.get(k)] ([None] when the key is absent or holds [None])
    is an [option]. *)

From Stdlib Require Import String Ascii DecimalString.
From Stdlib Require Import ZArith NArith List Bool Lia.
Import ListNotations.

Set Implicit Arguments.
Local Open Scope Z_scope.

(* ===================================================================== *)
(** ** Python strings *)
(* ===================================================================== *)

Definition char := N.
Definition str := list char.

Definition str_eq_dec : forall a b : str, {a = b} + {a <> b} :=
  list_eq_dec N.eq_dec.

Definition opt_str_eq_dec : forall a b : option str, {a = b} + {a <> b}.
Proof. decide equality; apply str_eq_dec. Defined.

(** A literal of the source, given in ASCII. *)
Definition lit (s : string) : str :=
  map N_of_ascii (list_ascii_of_string s).

(** The line feed of the source's ["\n"]. *)
Definition nl : str := [10%N].

(** [str(n)] for an integer, as an f-string prints it. *)
Definition str_of_int (n : Z) : str :=
  lit (NilZero.string_of_int (Z.to_int n)).

(** The characters [str.strip] removes when called without argument: the
    code points for which [str.isspace] holds. *)
Definition is_space (c : char) : bool :=
  ((9 <=? c) && (c <=? 13) || (28 <=? c) && (c <=? 32)
   || (c =? 133) || (c =? 160) || (c =? 5760)
   || (8192 <=? c) && (c <=? 8202)
   || (c =? 8232) || (c =? 8233) || (c =? 8239) || (c =? 8287)
   || (c =? 12288))%N.

Fixpoint lstrip (s : str) : str :=
  match s with
  | [] => []
  | c :: s' => if is_space c then lstrip s' else s
  end.

Definition rstrip (s : str) : str := rev (lstrip (rev s)).

Definition strip (s : str) : str := rstrip (lstrip s).

(** [sep.join(parts)]. *)
Fixpoint join (sep : str) (parts : list str) : str :=
  match parts with
  | [] => []
  | [p] => p
  | p :: ps => p ++ sep ++ join sep ps
  end.

(** [x or d] on an optional string: [None] and the empty string are falsy. *)
Definition str_or (x : option str) (d : str) : str :=
  match x with
  | Some [] => d
  | Some (c :: s) => c :: s
  | None => d
  end.

(** [x or d] on an optional integer: [None] and [0] are falsy. *)
Definition int_or (x : option Z) (d : Z) : Z :=
  match x with
  | Some v => if v =? 0 then d else v
  | None => d
  end.

(* ===================================================================== *)
(** ** Tokens and their time bounds *)
(* ===================================================================== *)

(** [token["text"]] is read with a plain subscript: the field is required
    and is a string.  The timing fields are integers where present. *)
Record token := Token {
  tok_text : str;
  tok_speaker : option str;
  tok_language : option str;
  tok_start_ms : option Z;
  tok_end_ms : option Z;
  tok_duration_ms : option Z
}.

Definition DEFAULT_SEGMENT_GAP_MS : Z := 1500.

Definition token_time_bounds (t : token) : Z * Z :=
  let start_ms := int_or (tok_start_ms t) 0 in
  let end_ms :=
    match tok_end_ms t with
    | Some e => e
    | None =>
        match tok_duration_ms t with
        | Some duration_ms => start_ms + duration_ms
        | None => start_ms
        end
    end in
  (start_ms, end_ms).

(** [token.get("speaker") or "unknown"]. *)
Definition token_speaker (t : token) : str :=
  str_or (tok_speaker t) (lit "unknown").

(* ===================================================================== *)
(** ** Speaker segmenter *)
(* ===================================================================== *)

Record segment := Segment {
  seg_speaker : str;
  seg_start_ms : Z;
  seg_end_ms : Z;
  seg_text : str
}.

(** The dictionary built for a token that opens a segment. *)
Definition new_segment (t : token) : segment :=
  {| seg_speaker := token_speaker t;
     seg_start_ms := fst (token_time_bounds t);
     seg_end_ms := snd (token_time_bounds t);
     seg_text := tok_text t |}.

(** The [else] branch of the loop: the current segment updated in place. *)
Definition extend_segment (cur : segment) (t : token) : segment :=
  {| seg_speaker := seg_speaker cur;
     seg_start_ms := seg_start_ms cur;
     seg_end_ms := Z.max (seg_end_ms cur) (snd (token_time_bounds t));
     seg_text := seg_text cur ++ tok_text t |}.

Definition speaker_changed (cur : segment) (t : token) : bool :=
  if str_eq_dec (token_speaker t) (seg_speaker cur) then false else true.

Definition long_pause (gap_ms : Z) (cur : segment) (t : token) : bool :=
  fst (token_time_bounds t) - seg_end_ms cur >? gap_ms.

(** Loop state: [segments] and [current_segment]. *)
Definition group_state := (list segment * option segment)%type.

Definition group_step (gap_ms : Z) (st : group_state) (t : token)
  : group_state :=
  let '(segments, current_segment) := st in
  match current_segment with
  | None => (segments, Some (new_segment t))
  | Some cur =>
      if speaker_changed cur t || long_pause gap_ms cur t
      then (segments ++ [cur], Some (new_segment t))
      else (segments, Some (extend_segment cur t))
  end.

Definition group_loop (gap_ms : Z) (final_tokens : list token) : group_state :=
  fold_left (group_step gap_ms) final_tokens ([], None).

Definition group_finish (st : group_state) : list segment :=
  match snd st with
  | Some cur => fst st ++ [cur]
  | None => fst st
  end.

Definition group_tokens_by_speaker (final_tokens : list token) (gap_ms : Z)
  : list segment :=
  group_finish (group_loop gap_ms final_tokens).

(** Ghost instrumentation of the same loop: next to every segment, the
    contiguous run of tokens it was built from.  Erasing the runs gives
    [group_step] back. *)
Definition run_state :=
  (list (segment * list token) * option (segment * list token))%type.

Definition run_step (gap_ms : Z) (st : run_state) (t : token) : run_state :=
  let '(finished, current) := st in
  match current with
  | None => (finished, Some (new_segment t, [t]))
  | Some (cur, run) =>
      if speaker_changed cur t || long_pause gap_ms cur t
      then (finished ++ [(cur, run)], Some (new_segment t, [t]))
      else (finished, Some (extend_segment cur t, run ++ [t]))
  end.

Definition run_loop (gap_ms : Z) (final_tokens : list token) : run_state :=
  fold_left (run_step gap_ms) final_tokens ([], None).

Definition segment_runs (final_tokens : list token) (gap_ms : Z)
  : list (segment * list token) :=
  match snd (run_loop gap_ms final_tokens) with
  | Some cur => fst (run_loop gap_ms final_tokens) ++ [cur]
  | None => fst (run_loop gap_ms final_tokens)
  end.

(** The running maximum of the end bounds of a run, seeded with the first
    token as the loop does. *)
Definition running_max_end (run : list token) : option Z :=
  match run with
  | [] => None
  | t0 :: rest =>
      Some (fold_left (fun m t => Z.max m (snd (token_time_bounds t)))
                      rest (snd (token_time_bounds t0)))
  end.

(** Forgetting the runs of a ghost state. *)
Definition erase_runs (st : run_state) : group_state :=
  (map fst (fst st), option_map fst (snd st)).

(** What the loop knows about a segment and its run: the run alone drives
    the loop into exactly that segment, and the segment's end is the running
    maximum over the run. *)
Definition run_ok (gap_ms : Z) (p : segment * list token) : Prop :=
  group_loop gap_ms (snd p) = ([], Some (fst p))
  /\ running_max_end (snd p) = Some (seg_end_ms (fst p)).

Definition run_state_ok (gap_ms : Z) (st : run_state) : Prop :=
  Forall (run_ok gap_ms) (fst st)
  /\ match snd st with Some p => run_ok gap_ms p | None => True end.

(* ===================================================================== *)
(** ** Plain transcript renderer *)
(* ===================================================================== *)

Record render_state := RenderState {
  text_parts : list str;
  current_speaker : option str;
  current_language : option str
}.

Definition speaker_header (speaker : str) : str :=
  lit "Speaker " ++ speaker ++ lit ":".

Definition language_marker (language : str) : str :=
  nl ++ lit "[" ++ language ++ lit "] ".

(** First [if] of the loop body: [speaker != current_speaker]. *)
Definition render_speaker (st : render_state) (speaker : str) : render_state :=
  if opt_str_eq_dec (Some speaker) (current_speaker st) then st
  else
    {| text_parts :=
         (match current_speaker st with
          | Some _ => text_parts st ++ [nl ++ nl]
          | None => text_parts st
          end) ++ [speaker_header speaker];
       current_speaker := Some speaker;
       current_language := None |}.

(** Second [if] of the loop body and the final [append]. *)
Definition render_language (st : render_state) (language : option str)
  (text : str) : render_state :=
  match language with
  | Some l =>
      if opt_str_eq_dec (Some l) (current_language st)
      then {| text_parts := text_parts st ++ [text];
              current_speaker := current_speaker st;
              current_language := current_language st |}
      else {| text_parts := text_parts st ++ [language_marker l] ++ [lstrip text];
              current_speaker := current_speaker st;
              current_language := Some l |}
  | None =>
      {| text_parts := text_parts st ++ [text];
         current_speaker := current_speaker st;
         current_language := current_language st |}
  end.

Definition render_step (st : render_state) (t : token) : render_state :=
  render_language (render_speaker st (token_speaker t))
                  (tok_language t) (tok_text t).

Definition render_init : render_state :=
  {| text_parts := []; current_speaker := None; current_language := None |}.

Definition render_loop (final_tokens : list token) : render_state :=
  fold_left render_step final_tokens render_init.

Definition render_tokens (final_tokens : list token) : str :=
  concat (text_parts (render_loop final_tokens)).

(* ===================================================================== *)
(** ** Time formatters *)
(* ===================================================================== *)

(** [format_time] and [format_srt_time] start with [ms / 1000.0]: the
    integer is converted to a float, which raises [OverflowError] when it is
    too large, and the digits are then computed in floating point.  A
    formatter is embedded as a partial function: [None] is the exception, and
    the text of a result is left open.  The renderers below are stated over
    an arbitrary such formatter. *)

(** The text a formatter gives where it returns. *)
Definition time_text (format : Z -> option str) (ms : Z) : str :=
  match format ms with
  | Some s => s
  | None => []
  end.

(** Whether a formatter returns on [ms]. *)
Definition formats (format : Z -> option str) (ms : Z) : bool :=
  match format ms with
  | Some _ => true
  | None => false
  end.

(** Whether both bounds of a segment can be formatted. *)
Definition segment_formats (format : Z -> option str) (seg : segment) : bool :=
  formats format (seg_start_ms seg) && formats format (seg_end_ms seg).

(* ===================================================================== *)
(** ** Timestamped transcript renderer *)
(* ===================================================================== *)

(** [if not segment_text: continue] keeps the segments for which this
    holds. *)
Definition has_text (seg : segment) : bool :=
  match strip (seg_text seg) with
  | [] => false
  | _ :: _ => true
  end.

(** The f-string of a block, from the two formatted time stamps. *)
Definition block_text (start end_ : str) (seg : segment) : str :=
  lit "[" ++ start ++ lit " --> " ++ end_ ++ lit "] Speaker "
    ++ seg_speaker seg ++ lit ":" ++ nl ++ strip (seg_text seg) ++ nl.

Section Timestamped.

Variable format_time : Z -> option str.

(** Body of the [for segment in segments] loop: both time stamps are
    formatted before the text is stripped and tested. *)
Definition timestamp_step (text_parts : list str) (seg : segment)
  : option (list str) :=
  match format_time (seg_start_ms seg) with
  | None => None
  | Some start =>
      match format_time (seg_end_ms seg) with
      | None => None
      | Some end_ =>
          match strip (seg_text seg) with
          | [] => Some text_parts
          | _ :: _ => Some (text_parts ++ [block_text start end_ seg])
          end
      end
  end.

(** The loop; an exception in the body leaves it. *)
Fixpoint timestamp_loop (text_parts : list str) (segments : list segment)
  : option (list str) :=
  match segments with
  | [] => Some text_parts
  | seg :: rest =>
      match timestamp_step text_parts seg with
      | None => None
      | Some parts => timestamp_loop parts rest
      end
  end.

Definition render_tokens_with_timestamps (final_tokens : list token)
  : option str :=
  let segments :=
    group_tokens_by_speaker final_tokens DEFAULT_SEGMENT_GAP_MS in
  match segments with
  | [] => Some []
  | _ :: _ =>
      match timestamp_loop [] segments with
      | None => None
      | Some text_parts => Some (strip (join nl text_parts))
      end
  end.

End Timestamped.

Section TimestampText.

(** The text of the time stamps, where the formatter returns. *)
Variable stamp : Z -> str.

(** The block of a segment. *)
Definition segment_block (seg : segment) : str :=
  block_text (stamp (seg_start_ms seg)) (stamp (seg_end_ms seg)) seg.

(** A segment as it shows in the transcript: the header line and the
    trimmed text, without the line feed that ends the block. *)
Definition segment_entry (seg : segment) : str :=
  lit "[" ++ stamp (seg_start_ms seg) ++ lit " --> "
    ++ stamp (seg_end_ms seg) ++ lit "] Speaker "
    ++ seg_speaker seg ++ lit ":" ++ nl ++ strip (seg_text seg).

End TimestampText.


(* ===================================================================== *)
(** ** Subtitle chunker *)
(* ===================================================================== *)

Record srt_state := SrtState {
  srt_parts : list str;
  chunk_index : Z;
  chunk_tokens : list str;
  chunk_start_ms : option Z;
  chunk_end_ms : option Z
}.

Section Subtitles.

Variable format_srt_time : Z -> option str.

(** The three parts appended for one chunk; [sep] is the text that follows
    the caption line (["\n\n"] inside the loop, ["\n"] for the last chunk).
    [format_srt_time] raises on [None] and on an integer too large for a
    float; both are [None] here. *)
Definition write_chunk (st : srt_state) (sep : str) : option (list str) :=
  match chunk_start_ms st, chunk_end_ms st with
  | Some cs, Some ce =>
      match format_srt_time cs, format_srt_time ce with
      | Some start, Some end_ =>
          Some (srt_parts st
                ++ [str_of_int (chunk_index st) ++ nl;
                    start ++ lit " --> " ++ end_ ++ nl;
                    strip (concat (chunk_tokens st)) ++ sep])
      | _, _ => None
      end
  | _, _ => None
  end.

Definition srt_step (chunk_duration_ms : Z) (st : srt_state) (t : token)
  : option srt_state :=
  let text := tok_text t in
  let '(start_ms, end_ms) := token_time_bounds t in
  match chunk_start_ms st with
  | None =>
      Some {| srt_parts := srt_parts st;
              chunk_index := chunk_index st;
              chunk_tokens := [text];
              chunk_start_ms := Some start_ms;
              chunk_end_ms := Some end_ms |}
  | Some cs =>
      if end_ms - cs <=? chunk_duration_ms
      then Some {| srt_parts := srt_parts st;
                   chunk_index := chunk_index st;
                   chunk_tokens := chunk_tokens st ++ [text];
                   chunk_start_ms := Some cs;
                   chunk_end_ms := Some end_ms |}
      else
        match write_chunk st (nl ++ nl) with
        | None => None
        | Some parts =>
            Some {| srt_parts := parts;
                    chunk_index := chunk_index st + 1;
                    chunk_tokens := [text];
                    chunk_start_ms := Some start_ms;
                    chunk_end_ms := Some end_ms |}
        end
  end.

Definition srt_init : srt_state :=
  {| srt_parts := []; chunk_index := 1; chunk_tokens := [];
     chunk_start_ms := None; chunk_end_ms := None |}.

(** The [for] loop; an exception in the body leaves the loop. *)
Fixpoint srt_loop (chunk_duration_ms : Z) (st : srt_state)
  (final_tokens : list token) : option srt_state :=
  match final_tokens with
  | [] => Some st
  | t :: rest =>
      match srt_step chunk_duration_ms st t with
      | None => None
      | Some st' => srt_loop chunk_duration_ms st' rest
      end
  end.

Definition tokens_to_srt (final_tokens : list token)
  (chunk_duration_ms : Z) : option str :=
  match final_tokens with
  | [] => Some []
  | _ :: _ =>
      match srt_loop chunk_duration_ms srt_init final_tokens with
      | None => None
      | Some st =>
          match chunk_tokens st with
          | [] => Some (concat (srt_parts st))
          | _ :: _ =>
              match write_chunk st nl with
              | None => None
              | Some parts => Some (concat parts)
              end
          end
      end
  end.

End Subtitles.

(** A chunk of the subtitle document: start, end and token texts. *)
Record chunk := Chunk {
  ch_start_ms : Z;
  ch_end_ms : Z;
  ch_tokens : list str
}.

(** Ghost view of the chunker's loop: the chunks it closes and the open
    one, with the same tests as [srt_step]. *)
Definition chunk_step (chunk_duration_ms : Z)
  (st : list chunk * option chunk) (t : token) : list chunk * option chunk :=
  let '(closed, open) := st in
  let '(start_ms, end_ms) := token_time_bounds t in
  match open with
  | None => (closed, Some (Chunk start_ms end_ms [tok_text t]))
  | Some c =>
      if end_ms - ch_start_ms c <=? chunk_duration_ms
      then (closed,
            Some (Chunk (ch_start_ms c) end_ms (ch_tokens c ++ [tok_text t])))
      else (closed ++ [c], Some (Chunk start_ms end_ms [tok_text t]))
  end.

Definition chunk_loop (chunk_duration_ms : Z) (final_tokens : list token)
  : list chunk * option chunk :=
  fold_left (chunk_step chunk_duration_ms) final_tokens ([], None).

Definition srt_chunks (final_tokens : list token) (chunk_duration_ms : Z)
  : list chunk :=
  match snd (chunk_loop chunk_duration_ms final_tokens) with
  | Some c => fst (chunk_loop chunk_duration_ms final_tokens) ++ [c]
  | None => fst (chunk_loop chunk_duration_ms final_tokens)
  end.

(** Whether both bounds of a chunk can be formatted. *)
Definition chunk_formats (format : Z -> option str) (c : chunk) : bool :=
  formats format (ch_start_ms c) && formats format (ch_end_ms c).

Section Captions.

(** The text of the time stamps, where the formatter returns. *)
Variable stamp : Z -> str.

(** One numbered caption: index line, time line, text line. *)
Definition caption (index : Z) (c : chunk) : str :=
  str_of_int index ++ nl
    ++ stamp (ch_start_ms c) ++ lit " --> "
    ++ stamp (ch_end_ms c) ++ nl
    ++ strip (concat (ch_tokens c)) ++ nl.

(** Captions numbered from [index], one blank line after each but the
    last. *)
Fixpoint captions (index : Z) (cs : list chunk) : str :=
  match cs with
  | [] => []
  | [c] => caption index c
  | c :: rest => caption index c ++ nl ++ captions (index + 1) rest
  end.

(** The captions written inside the loop: each is followed by a blank
    line. *)
Fixpoint captions_closed (index : Z) (cs : list chunk) : str :=
  match cs with
  | [] => []
  | c :: rest => caption index c ++ nl ++ captions_closed (index + 1) rest
  end.

(** The chunker's state [st] holds the chunks of the ghost state [g]: the
    closed ones already written, numbered from 1, and the open one in the
    [chunk_*] variables. *)
Definition srt_matches (st : srt_state) (g : list chunk * option chunk)
  : Prop :=
  concat (srt_parts st) = captions_closed 1 (fst g)
  /\ chunk_index st = 1 + Z.of_nat (length (fst g))
  /\ match snd g with
     | None =>
         fst g = [] /\ chunk_start_ms st = None /\ chunk_tokens st = []
     | Some c =>
         chunk_start_ms st = Some (ch_start_ms c)
         /\ chunk_end_ms st = Some (ch_end_ms c)
         /\ chunk_tokens st = ch_tokens c
         /\ ch_tokens c <> []
     end.

End Captions.

(** The open chunk of [st] after the tokens [pre]: it starts at the
    resolved start of the token that opened it and holds the texts read
    since. *)
Definition anchored (st : srt_state) (pre : list token) : Prop :=
  match chunk_start_ms st with
  | None => pre = []
  | Some cs =>
      exists before first rest,
        pre = before ++ first :: rest
        /\ cs = fst (token_time_bounds first)
        /\ chunk_tokens st = map tok_text (first :: rest)
  end.

(* ===================================================================== *)
(** ** Formatters for the examples, and sample inputs *)
(* ===================================================================== *)

(** The conversion of a Python integer to a float rounds to the nearest
    double, ties to even, and raises when the result is out of range: that
    is from [2^1024 - 2^970] on, in absolute value. *)
Definition float_overflows (n : Z) : bool :=
  2 ^ 1024 - 2 ^ 970 <=? Z.abs n.

(** [{n:0wd}] for a non-negative [n]. *)
Definition zero_pad (width : nat) (n : Z) : str :=
  repeat 48%N (width - length (str_of_int n)) ++ str_of_int n.

(** [HH:MM:SS,mmm] with the digits computed on integers. *)
Definition srt_time_digits (ms : Z) : str :=
  zero_pad 2 (ms / 3600000) ++ lit ":"
    ++ zero_pad 2 ((ms mod 3600000) / 60000) ++ lit ":"
    ++ zero_pad 2 ((ms mod 60000) / 1000) ++ lit ","
    ++ zero_pad 3 (ms mod 1000).

(** [HH:MM:SS.mmm], likewise. *)
Definition time_digits (ms : Z) : str :=
  zero_pad 2 (ms / 3600000) ++ lit ":"
    ++ zero_pad 2 ((ms mod 3600000) / 60000) ++ lit ":"
    ++ zero_pad 2 ((ms mod 60000) / 1000) ++ lit "."
    ++ zero_pad 3 (ms mod 1000).

(** Stand-ins for the two formatters in the worked examples.  They raise
    where the source does, on an integer that does not fit a float.  Their
    digits are exact; the source's come from floating point and are the same
    for the small non-negative times of the examples.  The theorems hold for
    every formatter. *)
Definition format_srt_time_exact (ms : Z) : option str :=
  if float_overflows ms then None else Some (srt_time_digits ms).

Definition format_time_exact (ms : Z) : option str :=
  if float_overflows ms then None else Some (time_digits ms).

(** A token of speaker [spk] with explicit start and end. *)
Definition spoken (text spk : string) (start_ms end_ms : Z) : token :=
  {| tok_text := lit text; tok_speaker := Some (lit spk);
     tok_language := None; tok_start_ms := Some start_ms;
     tok_end_ms := Some end_ms; tok_duration_ms := None |}.

(** A token with a start and a duration but no end. *)
Definition token_E : token :=
  {| tok_text := lit "x"; tok_speaker := None; tok_language := None;
     tok_start_ms := Some 1000; tok_end_ms := None;
     tok_duration_ms := Some 250 |}.

(** A token whose text is blank. *)
Definition blank_token : token := spoken "   " "1" 0 400.

(** A token with a language tag. *)
Definition tagged (text spk lang : string) : token :=
  {| tok_text := lit text; tok_speaker := Some (lit spk);
     tok_language := Some (lit lang); tok_start_ms := None;
     tok_end_ms := None; tok_duration_ms := None |}.


(** A time no float can hold. *)
Definition huge_ms : Z := 10 ^ 400.

(** A blank token that starts at [huge_ms]. *)
Definition blank_huge_token : token :=
  {| tok_text := lit " "; tok_speaker := None; tok_language := None;
     tok_start_ms := Some huge_ms; tok_end_ms := None;
     tok_duration_ms := None |}.

(* ===================================================================== *)
(** ** Further notions used by the properties *)
(* ===================================================================== *)

(** [duration_ms] as [main] computes it for the JSON report: the resolved
    end of the last token ([tokens[-1]]), and 0 when there is no token. *)
Definition main_duration_ms (tokens : list token) : Z :=
  match tokens with
  | [] => 0
  | t0 :: rest => snd (token_time_bounds (last rest t0))
  end.

(** [cur'] is [cur] after more tokens were merged into it: same speaker and
    start, an end that did not move back, and a text that only grew at its
    end. *)
Definition segment_grown (cur cur' : segment) : Prop :=
  seg_speaker cur' = seg_speaker cur
  /\ seg_start_ms cur' = seg_start_ms cur
  /\ seg_end_ms cur <= seg_end_ms cur'
  /\ exists extra, seg_text cur' = seg_text cur ++ extra.

(** What a segment takes from its run of tokens. *)
Definition run_fields (p : segment * list token) : Prop :=
  exists first rest,
    snd p = first :: rest
    /\ seg_speaker (fst p) = token_speaker first
    /\ seg_start_ms (fst p) = fst (token_time_bounds first)
    /\ seg_text (fst p) = concat (map tok_text (snd p))
    /\ Forall (fun t => token_speaker t = seg_speaker (fst p)) (snd p).

(** A segment read back as a token: the dictionary of a segment has the
    keys [speaker], [start_ms], [end_ms] and [text] and no others. *)
Definition token_of_segment (seg : segment) : token :=
  {| tok_text := seg_text seg;
     tok_speaker := Some (seg_speaker seg);
     tok_language := None;
     tok_start_ms := Some (seg_start_ms seg);
     tok_end_ms := Some (seg_end_ms seg);
     tok_duration_ms := None |}.

(** A segment as the plain transcript shows a speaker block when no
    language is marked: the header directly followed by the text. *)
Definition segment_inline (seg : segment) : str :=
  speaker_header (seg_speaker seg) ++ seg_text seg.

(** Two tokens the plain transcript cannot tell apart. *)
Definition same_plain_fields (a b : token) : Prop :=
  tok_text a = tok_text b
  /\ token_speaker a = token_speaker b
  /\ tok_language a = tok_language b.

(** Two tokens the subtitle chunker cannot tell apart. *)
Definition same_caption_fields (a b : token) : Prop :=
  tok_text a = tok_text b
  /\ token_time_bounds a = token_time_bounds b.

(* ===================================================================== *)
(** * Properties *)
(* ===================================================================== *)

(** ** Generic facts on lists and loops *)

Lemma fold_left_snoc (A B : Type) (f : A -> B -> A) (l : list B) (x : B)
  (a : A) : fold_left f (l ++ [x]) a = f (fold_left f l a) x.
Proof. now rewrite fold_left_app. Qed.

Lemma snoc_inj (A : Type) (l l' : list A) (x y : A) :
  l ++ [x] = l' ++ [y] -> l = l' /\ x = y.
Proof. intros H. apply app_inj_tail in H. exact H. Qed.

(** A list ending in [c] that is split around two neighbours [a], [b]:
    either [b] is that last element or both lie in the front part. *)
Lemma snoc_split_pair (A : Type) (front : list A) (c : A) l1 a b l2 :
  front ++ [c] = l1 ++ a :: b :: l2 ->
  (l2 = [] /\ b = c /\ front = l1 ++ [a])
  \/ (exists l2', l2 = l2' ++ [c] /\ front = l1 ++ a :: b :: l2').
Proof.
  intros H. destruct l2 as [| d l2'].
  - left. change (l1 ++ [a; b]) with (l1 ++ [a] ++ [b]) in H.
    rewrite app_assoc in H. apply snoc_inj in H. now destruct H; subst.
  - right.
    assert (Hne : d :: l2' <> []) by discriminate.
    destruct (exists_last Hne) as (l2'' & z & Hz).
    rewrite Hz in H |- *.
    replace (l1 ++ a :: b :: l2'' ++ [z])
      with ((l1 ++ a :: b :: l2'') ++ [z]) in H
      by (rewrite <- app_assoc; reflexivity).
    apply snoc_inj in H. destruct H; subst. eauto.
Qed.

(** ** Time bound resolver *)

(** C1: the resolved start is the token's [start_ms] when present and
    truthy (non-zero) and 0 otherwise; the resolved end is [end_ms] when
    present, else start plus [duration_ms] when that is present, else the
    start.  A token with [start_ms = 1000], [duration_ms = 250] and no
    [end_ms] resolves to (1000, 1250).  The resolver is a total function:
    every token gets a value. *)
Theorem token_time_bounds_resolves (t : token) :
  (forall v, tok_start_ms t = Some v -> v <> 0 ->
             fst (token_time_bounds t) = v)
  /\ (tok_start_ms t = None \/ tok_start_ms t = Some 0 ->
      fst (token_time_bounds t) = 0)
  /\ (forall e, tok_end_ms t = Some e -> snd (token_time_bounds t) = e)
  /\ (forall d, tok_end_ms t = None -> tok_duration_ms t = Some d ->
                snd (token_time_bounds t) = fst (token_time_bounds t) + d)
  /\ (tok_end_ms t = None -> tok_duration_ms t = None ->
      snd (token_time_bounds t) = fst (token_time_bounds t))
  /\ (forall text spk lang,
        token_time_bounds
          {| tok_text := text; tok_speaker := spk; tok_language := lang;
             tok_start_ms := Some 1000; tok_end_ms := None;
             tok_duration_ms := Some 250 |} = (1000, 1250)).
Proof.
  unfold token_time_bounds, int_or; cbn [fst snd].
  repeat split.
  - intros v Hs Hv. rewrite Hs.
    destruct (Z.eqb_spec v 0); [contradiction | reflexivity].
  - intros [Hs | Hs]; rewrite Hs; reflexivity.
  - intros e He. now rewrite He.
  - intros d He Hd. now rewrite He, Hd.
  - intros He Hd. now rewrite He, Hd.
Qed.

Lemma token_time_bounds_resolves_witness :
  fst (token_time_bounds token_E) = 1000
  /\ snd (token_time_bounds token_E) = fst (token_time_bounds token_E) + 250.
Proof.
  destruct (token_time_bounds_resolves token_E) as (Hs & _ & _ & Hd & _).
  split.
  - apply Hs; [reflexivity | discriminate].
  - apply Hd; reflexivity.
Defined.

(** ** Empty input *)

(** C9: on the empty token array the plain render is the empty string, the
    segment list is empty, the timestamped render is the empty string and
    the subtitle document is the empty string; no call fails. *)
Theorem empty_tokens_empty_output
  (format_time format_srt_time : Z -> option str)
  (gap_ms chunk_duration_ms : Z) :
  render_tokens [] = []
  /\ group_tokens_by_speaker [] gap_ms = []
  /\ render_tokens_with_timestamps format_time [] = Some []
  /\ tokens_to_srt format_srt_time [] chunk_duration_ms = Some [].
Proof. repeat split. Qed.

(** ** Speaker segmenter *)

Lemma group_loop_snoc gap_ms l t :
  group_loop gap_ms (l ++ [t]) = group_step gap_ms (group_loop gap_ms l) t.
Proof. apply fold_left_snoc. Qed.

Lemma group_step_current gap_ms st t :
  exists cur, snd (group_step gap_ms st t) = Some cur.
Proof.
  destruct st as [segs [cur |]]; cbn.
  - destruct (speaker_changed cur t || long_pause gap_ms cur t); cbn; eauto.
  - eauto.
Qed.

(** The loop has no current segment only before the first token. *)
Lemma group_loop_none gap_ms l :
  snd (group_loop gap_ms l) = None -> l = [].
Proof.
  destruct l as [| t l] using rev_ind; [reflexivity |].
  rewrite group_loop_snoc.
  destruct (group_step_current gap_ms (group_loop gap_ms l) t) as [c Hc].
  rewrite Hc. discriminate.
Qed.

Lemma group_output_state gap_ms l segs cur :
  group_tokens_by_speaker l gap_ms = segs ++ [cur] ->
  group_loop gap_ms l = (segs, Some cur).
Proof.
  unfold group_tokens_by_speaker, group_finish.
  destruct (group_loop gap_ms l) as [s [c |]] eqn:E; cbn.
  - intros H. apply snoc_inj in H. now destruct H; subst.
  - assert (l = []) by (apply (group_loop_none gap_ms); now rewrite E).
    subst l. cbn in E. injection E as <-. intros H.
    now destruct segs.
Qed.

(** C2: when the token that follows has the speaker of the current (last)
    segment, a new segment is started exactly when its resolved start minus
    the current segment's end is strictly greater than [gap_ms]; otherwise
    the current segment is extended.  A pause of exactly [gap_ms] extends, a
    pause of [gap_ms + 1] starts a new segment. *)
Theorem same_speaker_split_iff_long_pause
  (tokens : list token) (gap_ms : Z) (t : token)
  (segs : list segment) (cur : segment) :
  group_tokens_by_speaker tokens gap_ms = segs ++ [cur] ->
  token_speaker t = seg_speaker cur ->
  let pause := fst (token_time_bounds t) - seg_end_ms cur in
  (group_tokens_by_speaker (tokens ++ [t]) gap_ms
     = segs ++ [cur; new_segment t] <-> pause > gap_ms)
  /\ (group_tokens_by_speaker (tokens ++ [t]) gap_ms
        = segs ++ [extend_segment cur t] <-> pause <= gap_ms)
  /\ (pause = gap_ms ->
      group_tokens_by_speaker (tokens ++ [t]) gap_ms
        = segs ++ [extend_segment cur t])
  /\ (pause = gap_ms + 1 ->
      group_tokens_by_speaker (tokens ++ [t]) gap_ms
        = segs ++ [cur; new_segment t]).
Proof.
  intros Hout Hspk pause.
  apply group_output_state in Hout.
  assert (Hnew : pause > gap_ms ->
                 group_tokens_by_speaker (tokens ++ [t]) gap_ms
                 = segs ++ [cur; new_segment t]).
  { intros Hp. unfold group_tokens_by_speaker.
    rewrite group_loop_snoc, Hout. unfold group_step, speaker_changed.
    destruct (str_eq_dec (token_speaker t) (seg_speaker cur)); [| contradiction].
    unfold long_pause. fold pause.
    destruct (Z.gtb_spec pause gap_ms); [| lia].
    cbn. now rewrite <- app_assoc. }
  assert (Hext : pause <= gap_ms ->
                 group_tokens_by_speaker (tokens ++ [t]) gap_ms
                 = segs ++ [extend_segment cur t]).
  { intros Hp. unfold group_tokens_by_speaker.
    rewrite group_loop_snoc, Hout. unfold group_step, speaker_changed.
    destruct (str_eq_dec (token_speaker t) (seg_speaker cur)); [| contradiction].
    unfold long_pause. fold pause.
    destruct (Z.gtb_spec pause gap_ms); [lia |].
    reflexivity. }
  assert (Hdiff : segs ++ [cur; new_segment t]
                  <> segs ++ [extend_segment cur t]).
  { intros E. apply (f_equal (@length _)) in E.
    rewrite !length_app in E. cbn in E. lia. }
  repeat split.
  - intros E. destruct (Z_gt_le_dec pause gap_ms) as [G | L]; [exact G |].
    rewrite (Hext L) in E. now symmetry in E.
  - exact Hnew.
  - intros E. destruct (Z_gt_le_dec pause gap_ms) as [G | L]; [| exact L].
    rewrite (Hnew G) in E. contradiction.
  - exact Hext.
  - intros E. apply Hext. lia.
  - intros E. apply Hnew. lia.
Qed.

Lemma same_speaker_split_witness :
  let first := spoken "Hi " "1" 0 500 in
  let at_gap := spoken "there" "1" 2000 2400 in
  let past_gap := spoken "there" "1" 2001 2400 in
  group_tokens_by_speaker ([first] ++ [at_gap]) 1500
    = [] ++ [extend_segment (new_segment first) at_gap]
  /\ group_tokens_by_speaker ([first] ++ [past_gap]) 1500
    = [] ++ [new_segment first; new_segment past_gap].
Proof.
  intros first at_gap past_gap. split.
  - apply (same_speaker_split_iff_long_pause [first] 1500 at_gap []
             (new_segment first)); reflexivity.
  - apply (same_speaker_split_iff_long_pause [first] 1500 past_gap []
             (new_segment first)); reflexivity.
Defined.

(** Two tokens of one speaker 100 ms apart make one segment; 2500 ms apart
    they make two; speakers 1, 2, 1 make three segments without any pause. *)
Example group_close_tokens :
  group_tokens_by_speaker
    [spoken "Hi " "1" 0 500; spoken "there" "1" 600 1000] 1500
  = [Segment (lit "1") 0 1000 (lit "Hi there")].
Proof. reflexivity. Qed.

Example group_distant_tokens :
  group_tokens_by_speaker
    [spoken "Hi " "1" 0 500; spoken "there" "1" 3000 3400] 1500
  = [Segment (lit "1") 0 500 (lit "Hi ");
     Segment (lit "1") 3000 3400 (lit "there")].
Proof. reflexivity. Qed.

Example group_alternating_speakers :
  map seg_speaker
      (group_tokens_by_speaker
         [spoken "a" "1" 0 100; spoken "b" "2" 100 200; spoken "c" "1" 200 300]
         1500)
  = [lit "1"; lit "2"; lit "1"].
Proof. reflexivity. Qed.

(** *** Text is neither lost nor repeated *)

Lemma list_sum_snoc l n : list_sum (l ++ [n]) = (list_sum l + n)%nat.
Proof. rewrite list_sum_app. cbn. lia. Qed.

Lemma group_step_text_length gap_ms st t :
  list_sum (map (fun s => length (seg_text s))
                (group_finish (group_step gap_ms st t)))
  = (list_sum (map (fun s => length (seg_text s)) (group_finish st))
     + length (tok_text t))%nat.
Proof.
  destruct st as [segs [cur |]]; unfold group_finish, group_step; cbn [fst snd].
  - destruct (speaker_changed cur t || long_pause gap_ms cur t); cbn [fst snd].
    + rewrite !map_app. cbn [map]. rewrite !list_sum_snoc. reflexivity.
    + rewrite !map_app. cbn [map]. rewrite !list_sum_snoc.
      cbn [extend_segment seg_text]. rewrite length_app. lia.
  - rewrite map_app. cbn [map]. rewrite list_sum_snoc. reflexivity.
Qed.

(** C4: the lengths of the segment texts add up to the lengths of the token
    texts: segmentation neither drops nor duplicates text. *)
Theorem segmentation_preserves_text_length (tokens : list token) (gap_ms : Z) :
  list_sum (map (fun s => length (seg_text s))
                (group_tokens_by_speaker tokens gap_ms))
  = list_sum (map (fun t => length (tok_text t)) tokens).
Proof.
  unfold group_tokens_by_speaker.
  induction tokens as [| t tokens IH] using rev_ind.
  - reflexivity.
  - rewrite group_loop_snoc, group_step_text_length, IH.
    rewrite map_app. cbn [map]. now rewrite list_sum_snoc.
Qed.

(** *** Segments and the runs of tokens behind them *)

Lemma run_loop_snoc gap_ms l t :
  run_loop gap_ms (l ++ [t]) = run_step gap_ms (run_loop gap_ms l) t.
Proof. apply fold_left_snoc. Qed.

Lemma run_step_erase gap_ms st t :
  erase_runs (run_step gap_ms st t) = group_step gap_ms (erase_runs st) t.
Proof.
  destruct st as [fin [[cur run] |]]; unfold erase_runs; cbn.
  - destruct (speaker_changed cur t || long_pause gap_ms cur t); cbn.
    + now rewrite map_app.
    + reflexivity.
  - reflexivity.
Qed.

Lemma run_loop_erase gap_ms l :
  erase_runs (run_loop gap_ms l) = group_loop gap_ms l.
Proof.
  induction l as [| t l IH] using rev_ind; [reflexivity |].
  now rewrite run_loop_snoc, group_loop_snoc, run_step_erase, IH.
Qed.

(** Forgetting the runs gives the segmenter's output. *)
Lemma segment_runs_erase l gap_ms :
  map fst (segment_runs l gap_ms) = group_tokens_by_speaker l gap_ms.
Proof.
  unfold segment_runs, group_tokens_by_speaker, group_finish.
  rewrite <- (run_loop_erase gap_ms l).
  destruct (run_loop gap_ms l) as [fin [[cur run] |]]; cbn.
  - now rewrite map_app.
  - reflexivity.
Qed.

Lemma run_ok_new gap_ms t : run_ok gap_ms (new_segment t, [t]).
Proof. split; reflexivity. Qed.

Lemma running_max_end_snoc run t m :
  running_max_end run = Some m ->
  running_max_end (run ++ [t]) = Some (Z.max m (snd (token_time_bounds t))).
Proof.
  destruct run as [| t0 rest]; [discriminate |].
  cbn. intros [= <-]. now rewrite fold_left_snoc.
Qed.

Lemma run_ok_extend gap_ms cur run t :
  run_ok gap_ms (cur, run) ->
  speaker_changed cur t || long_pause gap_ms cur t = false ->
  run_ok gap_ms (extend_segment cur t, run ++ [t]).
Proof.
  intros [Hl Hm] Hc. cbn [fst snd] in *. split; cbn [fst snd].
  - rewrite group_loop_snoc, Hl. cbn. now rewrite Hc.
  - now apply running_max_end_snoc.
Qed.

Lemma run_loop_ok gap_ms l : run_state_ok gap_ms (run_loop gap_ms l).
Proof.
  induction l as [| t l IH] using rev_ind.
  - split; cbn; auto.
  - rewrite run_loop_snoc.
    destruct (run_loop gap_ms l) as [fin [[cur run] |]];
      destruct IH as [Hf Hc]; cbn [fst snd] in *; cbn [run_step].
    + destruct (speaker_changed cur t || long_pause gap_ms cur t) eqn:E;
        split; cbn [fst snd].
      * apply Forall_app. split; [exact Hf | now constructor].
      * apply run_ok_new.
      * exact Hf.
      * now apply run_ok_extend.
    + split; cbn [fst snd]; [exact Hf | apply run_ok_new].
Qed.

Lemma segment_runs_ok l gap_ms :
  Forall (run_ok gap_ms) (segment_runs l gap_ms).
Proof.
  unfold segment_runs. destruct (run_loop_ok gap_ms l) as [Hf Hc].
  destruct (snd (run_loop gap_ms l)) as [p |]; [| exact Hf].
  apply Forall_app. split; [exact Hf | now constructor].
Qed.

(** The runs are consecutive pieces of the input, in order. *)
Lemma segment_runs_concat l gap_ms :
  concat (map snd (segment_runs l gap_ms)) = l.
Proof.
  unfold segment_runs.
  assert (H : concat (map snd (fst (run_loop gap_ms l)))
              ++ match snd (run_loop gap_ms l) with
                 | Some p => snd p
                 | None => []
                 end = l).
  { induction l as [| t l IH] using rev_ind; [reflexivity |].
    rewrite run_loop_snoc.
    destruct (run_loop gap_ms l) as [fin [[cur run] |]];
      cbn [fst snd run_step] in *.
    - destruct (speaker_changed cur t || long_pause gap_ms cur t);
        cbn [fst snd].
      + rewrite map_app, concat_app. cbn [map concat snd].
        rewrite app_nil_r. now rewrite IH.
      + now rewrite app_assoc, IH.
    - rewrite app_nil_r in IH. now rewrite IH. }
  destruct (snd (run_loop gap_ms l)) as [p |].
  - rewrite map_app, concat_app. cbn. now rewrite app_nil_r.
  - now rewrite app_nil_r in H.
Qed.

(** C7: segmentation is idempotent on its own output.  Each segment comes
    from a contiguous run of the input tokens (the runs, in order, make up
    the input), and segmenting that run alone with the same [gap_ms] gives
    exactly one segment, equal to the original. *)
Theorem resegmenting_a_run_is_identity (tokens : list token) (gap_ms : Z) :
  map fst (segment_runs tokens gap_ms) = group_tokens_by_speaker tokens gap_ms
  /\ concat (map snd (segment_runs tokens gap_ms)) = tokens
  /\ (forall seg run,
        In (seg, run) (segment_runs tokens gap_ms) ->
        group_tokens_by_speaker run gap_ms = [seg]).
Proof.
  split; [apply segment_runs_erase |].
  split; [apply segment_runs_concat |].
  intros seg run Hin.
  pose proof (segment_runs_ok tokens gap_ms) as H.
  rewrite Forall_forall in H. destruct (H _ Hin) as [Hl _].
  cbn [fst snd] in Hl. unfold group_tokens_by_speaker. now rewrite Hl.
Qed.

Lemma resegmenting_a_run_witness :
  let first := spoken "Hi " "1" 0 500 in
  let second := spoken "there" "1" 2000 2400 in
  let third := spoken "Bye" "2" 2500 2900 in
  In (extend_segment (new_segment first) second, [first; second])
     (segment_runs [first; second; third] 1500)
  /\ group_tokens_by_speaker [first; second] 1500
     = [extend_segment (new_segment first) second].
Proof.
  intros first second third.
  assert (Hin : In (extend_segment (new_segment first) second, [first; second])
                   (segment_runs [first; second; third] 1500))
    by (left; reflexivity).
  split; [exact Hin |].
  exact (proj2 (proj2 (resegmenting_a_run_is_identity
                         [first; second; third] 1500)) _ _ Hin).
Defined.

(** Two neighbouring segments are separated for a reason: the speaker
    differs or the later one starts more than [gap_ms] after the end of
    the earlier one. *)
Lemma group_loop_adjacent gap_ms l l1 a b l2 :
  group_finish (group_loop gap_ms l) = l1 ++ a :: b :: l2 ->
  seg_speaker a <> seg_speaker b \/ seg_start_ms b - seg_end_ms a > gap_ms.
Proof.
  revert l1 a b l2.
  induction l as [| t l IH] using rev_ind; intros l1 a b l2.
  - cbn. intros H. now destruct l1.
  - rewrite group_loop_snoc.
    destruct (group_loop gap_ms l) as [segs [cur |]] eqn:E.
    + unfold group_finish in IH. cbn [fst snd] in IH.
      unfold group_step.
      destruct (speaker_changed cur t || long_pause gap_ms cur t) eqn:C;
        unfold group_finish; cbn [fst snd]; intros H.
      * apply snoc_split_pair in H.
        destruct H as [(_ & -> & Hf) | (l2' & _ & Hf)].
        -- apply snoc_inj in Hf. destruct Hf as [_ <-].
           apply orb_true_iff in C. destruct C as [C | C].
           ++ left. unfold speaker_changed in C.
              destruct (str_eq_dec (token_speaker t) (seg_speaker cur));
                [discriminate |].
              cbn [new_segment seg_speaker]. congruence.
           ++ right. unfold long_pause in C. apply Z.gtb_lt in C.
              cbn [new_segment seg_start_ms]. lia.
        -- now apply (IH l1 a b l2').
      * apply snoc_split_pair in H.
        destruct H as [(_ & -> & Hf) | (l2' & _ & Hf)].
        -- subst segs. cbn.
           apply (IH l1 a cur []). now rewrite <- app_assoc.
        -- subst segs. apply (IH l1 a b (l2' ++ [cur])).
           now rewrite <- app_assoc.
    + assert (l = []) by (apply (group_loop_none gap_ms); now rewrite E).
      subst l. cbn in E. injection E as <-.
      cbn. intros H. destruct l1 as [| ? [| ? ?]]; discriminate.
Qed.

(** C8: segments are maximal runs.  Two adjacent segments of the output
    either carry different speakers or the later one starts more than
    [gap_ms] after the earlier one's final end.  Each segment's end is the
    running maximum of the end bounds of the tokens of its run, and
    extending the current segment by a token never lowers its end. *)
Theorem segments_are_maximal_runs (tokens : list token) (gap_ms : Z) :
  (forall l1 a b l2,
      group_tokens_by_speaker tokens gap_ms = l1 ++ a :: b :: l2 ->
      seg_speaker a <> seg_speaker b
      \/ seg_start_ms b - seg_end_ms a > gap_ms)
  /\ map fst (segment_runs tokens gap_ms)
     = group_tokens_by_speaker tokens gap_ms
  /\ (forall seg run,
        In (seg, run) (segment_runs tokens gap_ms) ->
        running_max_end run = Some (seg_end_ms seg))
  /\ (forall t segs cur,
        group_loop gap_ms tokens = (segs, Some cur) ->
        speaker_changed cur t || long_pause gap_ms cur t = false ->
        exists cur',
          group_loop gap_ms (tokens ++ [t]) = (segs, Some cur')
          /\ seg_end_ms cur' = Z.max (seg_end_ms cur)
                                     (snd (token_time_bounds t))
          /\ seg_end_ms cur <= seg_end_ms cur').
Proof.
  split; [| split; [| split]].
  - intros l1 a b l2. apply group_loop_adjacent.
  - apply segment_runs_erase.
  - intros seg run Hin.
    pose proof (segment_runs_ok tokens gap_ms) as H.
    rewrite Forall_forall in H. now destruct (H _ Hin) as [_ Hm].
  - intros t segs cur Hl Hc. exists (extend_segment cur t).
    rewrite group_loop_snoc, Hl. cbn [group_step]. rewrite Hc.
    cbn. repeat split. lia.
Qed.

Lemma segments_are_maximal_runs_witness :
  let first := spoken "Hi " "1" 0 500 in
  let late := spoken "there" "1" 2001 2400 in
  group_tokens_by_speaker [first; late] 1500
    = [] ++ new_segment first :: new_segment late :: []
  /\ (seg_speaker (new_segment first) <> seg_speaker (new_segment late)
      \/ seg_start_ms (new_segment late) - seg_end_ms (new_segment first)
         > 1500).
Proof.
  intros first late.
  assert (H : group_tokens_by_speaker [first; late] 1500
              = [] ++ new_segment first :: new_segment late :: [])
    by reflexivity.
  split; [exact H |].
  exact (proj1 (segments_are_maximal_runs [first; late] 1500) _ _ _ _ H).
Defined.

(** ** Stripping white space *)

Lemma lstrip_nonspace c s : is_space c = false -> lstrip (c :: s) = c :: s.
Proof. intros H. cbn. now rewrite H. Qed.

Lemma lstrip_head s c r : lstrip s = c :: r -> is_space c = false.
Proof.
  induction s as [| a s IH]; cbn; [discriminate |].
  destruct (is_space a) eqn:E; [exact IH |].
  now intros [= <- _].
Qed.

Lemma rstrip_snoc_nonspace a d :
  is_space d = false -> rstrip (a ++ [d]) = a ++ [d].
Proof.
  intros H. unfold rstrip. rewrite rev_app_distr. cbn [rev app].
  rewrite lstrip_nonspace by exact H.
  cbn [rev]. now rewrite rev_involutive.
Qed.

Lemma rstrip_snoc_space a d : is_space d = true -> rstrip (a ++ [d]) = rstrip a.
Proof.
  intros H. unfold rstrip. rewrite rev_app_distr. cbn. now rewrite H.
Qed.

(** What [rstrip] leaves is empty or ends in a character that is not
    white space. *)
Lemma rstrip_last s :
  rstrip s = [] \/ exists a d, rstrip s = a ++ [d] /\ is_space d = false.
Proof.
  unfold rstrip. destruct (lstrip (rev s)) as [| c r] eqn:E.
  - now left.
  - right. exists (rev r), c. split; [reflexivity |].
    exact (lstrip_head _ E).
Qed.

Lemma strip_last s :
  strip s = [] \/ exists a d, strip s = a ++ [d] /\ is_space d = false.
Proof. apply rstrip_last. Qed.

Lemma has_text_last seg :
  has_text seg = true ->
  exists a d, strip (seg_text seg) = a ++ [d] /\ is_space d = false.
Proof.
  unfold has_text. destruct (strip_last (seg_text seg)) as [E | H].
  - now rewrite E.
  - intros _. exact H.
Qed.

(** [strip] removes white space at both ends and nothing else. *)
Lemma lstrip_spec s :
  exists a, s = a ++ lstrip s /\ forallb is_space a = true.
Proof.
  induction s as [| c s IH]; [exists []; split; reflexivity |].
  cbn [lstrip]. destruct (is_space c) eqn:E.
  - destruct IH as (a & Ha & Hs). exists (c :: a). cbn. rewrite E.
    split; [now rewrite <- Ha | exact Hs].
  - exists []. split; reflexivity.
Qed.

Lemma forallb_rev (A : Type) (f : A -> bool) (l : list A) :
  forallb f (rev l) = forallb f l.
Proof.
  induction l as [| x l IH]; [reflexivity |].
  cbn [rev forallb]. rewrite forallb_app, IH. cbn. now rewrite andb_true_r, andb_comm.
Qed.

Lemma rstrip_spec s :
  exists b, s = rstrip s ++ b /\ forallb is_space b = true.
Proof.
  unfold rstrip. destruct (lstrip_spec (rev s)) as (a & Ha & Hs).
  exists (rev a). split; [| now rewrite forallb_rev].
  rewrite <- rev_app_distr, <- Ha. now rewrite rev_involutive.
Qed.

Lemma strip_first s c r : strip s = c :: r -> is_space c = false.
Proof.
  unfold strip. intros H.
  destruct (lstrip s) as [| d t] eqn:E; [discriminate H |].
  pose proof (lstrip_head _ E) as Hd.
  destruct (rstrip_spec (d :: t)) as (b & Hb & _).
  rewrite H in Hb. injection Hb as -> _. exact Hd.
Qed.

Lemma strip_spec s :
  exists a b,
    s = a ++ strip s ++ b
    /\ forallb is_space a = true
    /\ forallb is_space b = true
    /\ (forall c r, strip s = c :: r -> is_space c = false)
    /\ (forall r d, strip s = r ++ [d] -> is_space d = false).
Proof.
  destruct (lstrip_spec s) as (a & Ha & Hsa).
  destruct (rstrip_spec (lstrip s)) as (b & Hb & Hsb).
  exists a, b. fold (strip s) in Hb.
  split; [now rewrite <- Hb |].
  split; [exact Hsa |]. split; [exact Hsb |].
  split; [apply strip_first |].
  intros r d E. destruct (strip_last s) as [E0 | (r' & d' & E' & Hd)].
  - rewrite E0 in E. now destruct r.
  - rewrite E' in E. apply snoc_inj in E. destruct E as [_ ->]. exact Hd.
Qed.

(** ** Timestamped transcript renderer *)

Section TimestampTextFacts.

Variable stamp : Z -> str.

Lemma segment_block_entry seg :
  segment_block stamp seg = segment_entry stamp seg ++ nl.
Proof.
  unfold segment_block, block_text, segment_entry. now rewrite <- !app_assoc.
Qed.

(** Blocks joined by one line feed are entries joined by two, plus the
    line feed of the last block. *)
Lemma join_blocks seg segs :
  join nl (map (segment_block stamp) (seg :: segs))
  = join (nl ++ nl) (map (segment_entry stamp) (seg :: segs)) ++ nl.
Proof.
  revert seg. induction segs as [| seg' segs IH]; intros seg.
  - cbn [map join]. apply segment_block_entry.
  - change (join nl (map (segment_block stamp) (seg :: seg' :: segs)))
      with (segment_block stamp seg ++ nl
              ++ join nl (map (segment_block stamp) (seg' :: segs))).
    change (join (nl ++ nl)
                 (map (segment_entry stamp) (seg :: seg' :: segs)))
      with (segment_entry stamp seg ++ (nl ++ nl)
              ++ join (nl ++ nl)
                      (map (segment_entry stamp) (seg' :: segs))).
    rewrite IH, segment_block_entry. now rewrite <- !app_assoc.
Qed.

Lemma join_entries_head seg segs :
  exists r,
    join (nl ++ nl) (map (segment_entry stamp) (seg :: segs))
    = 91%N :: r.
Proof.
  destruct segs as [| seg' segs]; cbn [map join]; unfold segment_entry;
    cbn [lit map list_ascii_of_string app]; eauto.
Qed.

Lemma join_entries_last seg segs :
  Forall (fun s => has_text s = true) (seg :: segs) ->
  exists a d,
    join (nl ++ nl) (map (segment_entry stamp) (seg :: segs))
    = a ++ [d] /\ is_space d = false.
Proof.
  revert seg. induction segs as [| seg' segs IH]; intros seg H.
  - inversion H as [| ? ? Ht _]; subst.
    destruct (has_text_last _ Ht) as (a & d & E & Hd).
    cbn [map join]. unfold segment_entry. rewrite E.
    eexists _, d. split; [| exact Hd].
    rewrite !app_assoc. reflexivity.
  - inversion H as [| ? ? _ H']; subst.
    destruct (IH seg' H') as (a & d & E & Hd).
    change (join (nl ++ nl)
                 (map (segment_entry stamp) (seg :: seg' :: segs)))
      with (segment_entry stamp seg ++ (nl ++ nl)
              ++ join (nl ++ nl)
                      (map (segment_entry stamp) (seg' :: segs))).
    rewrite E. eexists _, d. split; [| exact Hd].
    rewrite !app_assoc. reflexivity.
Qed.

Lemma strip_joined_blocks segs :
  Forall (fun s => has_text s = true) segs ->
  strip (join nl (map (segment_block stamp) segs))
  = join (nl ++ nl) (map (segment_entry stamp) segs)
  /\ rstrip (join nl (map (segment_block stamp) segs))
  = join (nl ++ nl) (map (segment_entry stamp) segs).
Proof.
  intros H. destruct segs as [| seg segs]; [split; reflexivity |].
  rewrite join_blocks.
  destruct (join_entries_head seg segs) as (r & Hh).
  destruct (join_entries_last H) as (a & d & Hl & Hd).
  assert (R : rstrip (join (nl ++ nl)
                           (map (segment_entry stamp) (seg :: segs))
                      ++ nl)
              = join (nl ++ nl)
                     (map (segment_entry stamp) (seg :: segs))).
  { rewrite Hl. unfold nl at 1.
    rewrite rstrip_snoc_space by reflexivity.
    now apply rstrip_snoc_nonspace. }
  split; [| exact R].
  unfold strip. rewrite Hh at 1. cbn [app].
  rewrite lstrip_nonspace by reflexivity.
  change (91%N :: r ++ nl) with ((91%N :: r) ++ nl). rewrite <- Hh.
  exact R.
Qed.

End TimestampTextFacts.

Lemma filter_has_text segs :
  Forall (fun s => has_text s = true) (filter has_text segs).
Proof.
  apply Forall_forall. intros s Hs. now apply filter_In in Hs.
Qed.

Section TimestampedFacts.

Variable format_time : Z -> option str.

(** One turn of the loop: it raises when a bound of the segment cannot be
    formatted, whether the segment has text or not. *)
Lemma timestamp_step_exact parts seg :
  timestamp_step format_time parts seg
  = if segment_formats format_time seg
    then Some (if has_text seg
               then parts ++ [segment_block (time_text format_time) seg]
               else parts)
    else None.
Proof.
  unfold timestamp_step, segment_formats, formats, segment_block, time_text,
    has_text.
  destruct (format_time (seg_start_ms seg)) as [a |]; [| reflexivity].
  destruct (format_time (seg_end_ms seg)) as [b |]; [| reflexivity].
  cbn [andb]. now destruct (strip (seg_text seg)).
Qed.

(** The loop over the segments collects the blocks of the segments that
    have text, and raises when some segment cannot be formatted. *)
Lemma timestamp_loop_exact segs parts :
  timestamp_loop format_time parts segs
  = if forallb (segment_formats format_time) segs
    then Some (parts ++ map (segment_block (time_text format_time))
                            (filter has_text segs))
    else None.
Proof.
  revert parts. induction segs as [| seg segs IH]; intros parts.
  - cbn. now rewrite app_nil_r.
  - cbn [timestamp_loop forallb filter]. rewrite timestamp_step_exact.
    destruct (segment_formats format_time seg); [| reflexivity].
    cbn [andb]. rewrite IH.
    destruct (forallb (segment_formats format_time) segs); [| reflexivity].
    destruct (has_text seg); [| reflexivity].
    cbn [map]. now rewrite <- app_assoc.
Qed.

(** The result of the renderer, exactly. *)
Lemma render_timestamps_exact tokens :
  render_tokens_with_timestamps format_time tokens
  = if forallb (segment_formats format_time)
               (group_tokens_by_speaker tokens DEFAULT_SEGMENT_GAP_MS)
    then Some (join (nl ++ nl)
                    (map (segment_entry (time_text format_time))
                         (filter has_text
                                 (group_tokens_by_speaker
                                    tokens DEFAULT_SEGMENT_GAP_MS))))
    else None.
Proof.
  unfold render_tokens_with_timestamps.
  destruct (group_tokens_by_speaker tokens DEFAULT_SEGMENT_GAP_MS)
    as [| s0 segs0] eqn:E; [reflexivity |].
  rewrite timestamp_loop_exact.
  destruct (forallb (segment_formats format_time) (s0 :: segs0));
    [| reflexivity].
  cbn [app]. f_equal.
  exact (proj1 (strip_joined_blocks (time_text format_time)
                  (filter_has_text (s0 :: segs0)))).
Qed.

Lemma segments_format_iff segs :
  forallb (segment_formats format_time) segs = true
  <-> forall s, In s segs ->
                exists a b,
                  format_time (seg_start_ms s) = Some a
                  /\ format_time (seg_end_ms s) = Some b.
Proof.
  rewrite forallb_forall. split; intros H s Hs; specialize (H s Hs).
  - unfold segment_formats, formats in H.
    destruct (format_time (seg_start_ms s)) as [a |]; [| discriminate].
    destruct (format_time (seg_end_ms s)) as [b |]; [| discriminate].
    eauto.
  - destruct H as (a & b & Ha & Hb).
    unfold segment_formats, formats. now rewrite Ha, Hb.
Qed.

Lemma segments_format_fails segs :
  (exists s, In s segs
             /\ (format_time (seg_start_ms s) = None
                 \/ format_time (seg_end_ms s) = None)) ->
  forallb (segment_formats format_time) segs = false.
Proof.
  intros (s & Hs & Hn).
  destruct (forallb (segment_formats format_time) segs) eqn:E;
    [| reflexivity].
  apply segments_format_iff with (s := s) in E; [| exact Hs].
  destruct E as (a & b & Ha & Hb). destruct Hn as [Hn | Hn]; congruence.
Qed.

(** C5: the renderer segments the tokens with the default gap
    of 1500 ms and formats the start and the end of every segment, blank or
    not.  When the formatter returns on all of them, the renderer drops every
    segment whose text is empty once stripped (stripping removes the white
    space at both ends and nothing else), renders the others as a header
    line and the stripped text, puts one blank line between two blocks and
    leaves no white space at the end; trimming the joined blocks at the end
    only gives the same result; the result is the empty string when no
    segment is left.  When the formatter raises on a bound of some segment,
    the call raises. *)
Theorem timestamped_render_blocks (tokens : list token) :
  let segs := group_tokens_by_speaker tokens DEFAULT_SEGMENT_GAP_MS in
  let kept := filter has_text segs in
  let stamp := time_text format_time in
  DEFAULT_SEGMENT_GAP_MS = 1500
  /\ (forall s, In s kept <-> In s segs /\ strip (seg_text s) <> [])
  /\ (forall s, exists a b,
         seg_text s = a ++ strip (seg_text s) ++ b
         /\ forallb is_space a = true /\ forallb is_space b = true
         /\ (forall c r, strip (seg_text s) = c :: r -> is_space c = false)
         /\ (forall r d, strip (seg_text s) = r ++ [d] -> is_space d = false))
  /\ (forall s,
         segment_entry stamp s
         = lit "[" ++ stamp (seg_start_ms s) ++ lit " --> "
             ++ stamp (seg_end_ms s) ++ lit "] Speaker " ++ seg_speaker s
             ++ lit ":" ++ nl ++ strip (seg_text s)
         /\ segment_block stamp s = segment_entry stamp s ++ nl)
  /\ ((forall s, In s segs ->
                 exists a b,
                   format_time (seg_start_ms s) = Some a
                   /\ format_time (seg_end_ms s) = Some b) ->
      render_tokens_with_timestamps format_time tokens
      = Some (rstrip (join nl (map (segment_block stamp) kept)))
      /\ render_tokens_with_timestamps format_time tokens
         = Some (join (nl ++ nl) (map (segment_entry stamp) kept))
      /\ ((forall s, In s segs -> strip (seg_text s) = []) ->
          render_tokens_with_timestamps format_time tokens = Some []))
  /\ ((exists s, In s segs
                 /\ (format_time (seg_start_ms s) = None
                     \/ format_time (seg_end_ms s) = None)) ->
      render_tokens_with_timestamps format_time tokens = None).
Proof.
  intros segs kept stamp.
  assert (Hk : forall s, In s kept <-> In s segs /\ strip (seg_text s) <> []).
  { intros s. unfold kept. rewrite filter_In. unfold has_text.
    destruct (strip (seg_text s)); intuition congruence. }
  split; [reflexivity |].
  split; [exact Hk |].
  split; [intros s; apply strip_spec |].
  split; [intros s; split; [reflexivity | apply segment_block_entry] |].
  split.
  - intros Hall. apply segments_format_iff in Hall.
    pose proof (render_timestamps_exact tokens) as Hr.
    fold segs in Hr. rewrite Hall in Hr. fold kept stamp in Hr.
    destruct (strip_joined_blocks stamp (filter_has_text segs)) as [_ Hrs].
    fold kept in Hrs.
    split; [now rewrite Hr, Hrs |].
    split; [exact Hr |].
    intros Hblank. rewrite Hr.
    destruct kept as [| s kept'] eqn:E; [reflexivity |].
    assert (Hin : In s (s :: kept')) by now left.
    apply Hk in Hin. destruct Hin as [Hin Hne]. now apply Hblank in Hin.
  - intros Hbad. apply segments_format_fails in Hbad.
    pose proof (render_timestamps_exact tokens) as Hr.
    fold segs in Hr. now rewrite Hbad in Hr.
Qed.

End TimestampedFacts.

Lemma timestamped_render_blocks_witness :
  let tokens :=
    [spoken "  Hi " "1" 0 500; spoken "there " "1" 600 1000;
     spoken "   " "2" 1000 1400; spoken "Bye" "1" 4000 4400] in
  (forall s,
      In s (group_tokens_by_speaker tokens DEFAULT_SEGMENT_GAP_MS) ->
      exists a b,
        format_time_exact (seg_start_ms s) = Some a
        /\ format_time_exact (seg_end_ms s) = Some b)
  /\ render_tokens_with_timestamps format_time_exact tokens
     = Some (lit "[00:00:00.000 --> 00:00:01.000] Speaker 1:" ++ nl
               ++ lit "Hi there" ++ nl ++ nl
               ++ lit "[00:00:04.000 --> 00:00:04.400] Speaker 1:" ++ nl
               ++ lit "Bye").
Proof.
  intros tokens.
  assert (H : forall s,
             In s (group_tokens_by_speaker tokens DEFAULT_SEGMENT_GAP_MS) ->
             exists a b,
               format_time_exact (seg_start_ms s) = Some a
               /\ format_time_exact (seg_end_ms s) = Some b).
  { intros s [<- | [<- | [<- | []]]]; eexists _, _; split;
      vm_compute; reflexivity. }
  split; [exact H |].
  destruct (timestamped_render_blocks format_time_exact tokens)
    as (_ & _ & _ & _ & Hok & _).
  destruct (Hok H) as (_ & Hr & _).
  rewrite Hr. vm_compute. reflexivity.
Defined.

(** A blank segment is not always skipped in silence: here the only
    segment is blank and starts at a time no float can hold, and the call
    raises where the empty string was expected. *)
Lemma timestamped_render_blocks_counterexample :
  (forall s,
      In s (group_tokens_by_speaker [blank_huge_token]
                                    DEFAULT_SEGMENT_GAP_MS) ->
      strip (seg_text s) = [])
  /\ render_tokens_with_timestamps format_time_exact [blank_huge_token]
     = None
  /\ render_tokens_with_timestamps format_time_exact [blank_huge_token]
     <> Some [].
Proof.
  split; [intros s [<- | []]; reflexivity |].
  assert (H : render_tokens_with_timestamps format_time_exact
                [blank_huge_token] = None) by (vm_compute; reflexivity).
  split; [exact H |]. rewrite H. discriminate.
Qed.

(** ** Plain transcript renderer *)

Lemma render_loop_snoc l t :
  render_loop (l ++ [t]) = render_step (render_loop l) t.
Proof. apply fold_left_snoc. Qed.

Lemma concat_snoc (A : Type) (l : list (list A)) (x : list A) :
  concat (l ++ [x]) = concat l ++ x.
Proof. rewrite concat_app. cbn. now rewrite app_nil_r. Qed.

Lemma render_speaker_current st speaker :
  current_speaker (render_speaker st speaker) = Some speaker.
Proof.
  unfold render_speaker.
  destruct (opt_str_eq_dec (Some speaker) (current_speaker st)) as [E | N];
    [now symmetry | reflexivity].
Qed.

Lemma render_language_current st language text :
  current_speaker (render_language st language text) = current_speaker st.
Proof.
  unfold render_language. destruct language as [l |]; [| reflexivity].
  now destruct (opt_str_eq_dec (Some l) (current_language st)).
Qed.

Lemma render_step_current st t :
  current_speaker (render_step st t) = Some (token_speaker t).
Proof.
  unfold render_step.
  now rewrite render_language_current, render_speaker_current.
Qed.

(** A speaker is being tracked as soon as one token has been read. *)
Lemma render_loop_no_speaker l :
  current_speaker (render_loop l) = None <-> l = [].
Proof.
  split.
  - destruct l as [| t l] using rev_ind; [reflexivity |].
    rewrite render_loop_snoc, render_step_current. discriminate.
  - now intros ->.
Qed.

(** What one more token appends, case by case. *)
Lemma render_tokens_step_cases (pre : list token) (t : token) :
  let st := render_loop pre in
  let st' := render_loop (pre ++ [t]) in
  let speaker := token_speaker t in
  (current_speaker st = None <-> pre = [])
  /\ current_speaker st' = Some speaker
  /\ (current_speaker st <> Some speaker ->
      render_tokens (pre ++ [t])
      = render_tokens pre
          ++ match current_speaker st with
             | Some _ => nl ++ nl
             | None => []
             end
          ++ speaker_header speaker
          ++ match tok_language t with
             | Some l => language_marker l ++ lstrip (tok_text t)
             | None => tok_text t
             end
      /\ current_language st' = tok_language t)
  /\ (current_speaker st = Some speaker ->
      (forall l,
          tok_language t = Some l -> current_language st <> Some l ->
          render_tokens (pre ++ [t])
          = render_tokens pre ++ language_marker l ++ lstrip (tok_text t)
          /\ current_language st' = Some l)
      /\ (tok_language t = None \/ tok_language t = current_language st ->
          render_tokens (pre ++ [t]) = render_tokens pre ++ tok_text t
          /\ current_language st' = current_language st)).
Proof.
  intros st st' speaker.
  split; [apply render_loop_no_speaker |].
  split; [unfold st'; rewrite render_loop_snoc; apply render_step_current |].
  unfold st', render_tokens. rewrite render_loop_snoc. fold st.
  unfold render_step. fold speaker. unfold render_speaker.
  destruct (opt_str_eq_dec (Some speaker) (current_speaker st)) as [E | N].
  - split; [intros H; now symmetry in E |].
    intros _. split.
    + intros l Hl Hd. rewrite Hl. unfold render_language.
      destruct (opt_str_eq_dec (Some l) (current_language st)) as [E' | _];
        [now symmetry in E' |].
      cbn [text_parts current_language]. split; [| reflexivity].
      rewrite app_assoc, !concat_snoc. now rewrite <- app_assoc.
    + intros [Hn | Hs].
      * rewrite Hn. cbn [render_language text_parts current_language].
        now rewrite concat_snoc.
      * unfold render_language. destruct (tok_language t) as [l |].
        -- destruct (opt_str_eq_dec (Some l) (current_language st))
             as [_ | N']; [| contradiction].
           cbn [text_parts current_language]. now rewrite concat_snoc.
        -- cbn [text_parts current_language]. now rewrite concat_snoc.
  - split; [| intros H; now symmetry in H].
    intros _. unfold render_language.
    destruct (tok_language t) as [l |].
    + cbn [current_language text_parts].
      destruct (opt_str_eq_dec (Some l) None) as [D | _]; [discriminate |].
      cbn [current_language text_parts]. split; [| reflexivity].
      destruct (current_speaker st);
        rewrite ?app_assoc, !concat_snoc; now rewrite <- ?app_assoc.
    + cbn [current_language text_parts]. split; [| reflexivity].
      destruct (current_speaker st);
        rewrite ?app_assoc, !concat_snoc; now rewrite <- ?app_assoc.
Qed.

(** C6: what one more token adds to the plain transcript.  When its
    speaker differs from the current one: a paragraph break (two line
    feeds) if a speaker block was already open, and none for the first
    token; then the header [Speaker <id>:]; the tracked language is reset, so
    that a language carried by the token is marked whatever language was in
    effect before.  When a language is present and differs from the tracked
    one: the marker, a line feed followed by the language in brackets and a
    space, right before the token's text with its leading white space (and
    nothing else) stripped.  Otherwise the text is appended unchanged. *)
Theorem render_tokens_appends (pre : list token) (t : token) :
  let st := render_loop pre in
  let st' := render_loop (pre ++ [t]) in
  let speaker := token_speaker t in
  (current_speaker st = None <-> pre = [])
  /\ current_speaker st' = Some speaker
  /\ (current_speaker st <> Some speaker ->
      render_tokens (pre ++ [t])
      = render_tokens pre
          ++ match current_speaker st with
             | Some _ => [10%N; 10%N]
             | None => []
             end
          ++ (lit "Speaker " ++ speaker ++ lit ":")
          ++ match tok_language t with
             | Some l =>
                 ([10%N] ++ lit "[" ++ l ++ lit "] ") ++ lstrip (tok_text t)
             | None => tok_text t
             end
      /\ current_language st' = tok_language t)
  /\ (current_speaker st = Some speaker ->
      (forall l,
          tok_language t = Some l -> current_language st <> Some l ->
          render_tokens (pre ++ [t])
          = render_tokens pre
              ++ ([10%N] ++ lit "[" ++ l ++ lit "] ") ++ lstrip (tok_text t)
          /\ current_language st' = Some l)
      /\ (tok_language t = None \/ tok_language t = current_language st ->
          render_tokens (pre ++ [t]) = render_tokens pre ++ tok_text t
          /\ current_language st' = current_language st))
  /\ (exists a,
         tok_text t = a ++ lstrip (tok_text t)
         /\ forallb is_space a = true
         /\ forall c r, lstrip (tok_text t) = c :: r -> is_space c = false).
Proof.
  intros st st' speaker.
  destruct (render_tokens_step_cases pre t) as (H1 & H2 & H3 & H4).
  split; [exact H1 |]. split; [exact H2 |].
  split; [exact H3 |]. split; [exact H4 |].
  destruct (lstrip_spec (tok_text t)) as (a & Ha & Hs).
  exists a. split; [exact Ha |]. split; [exact Hs |].
  intros c r. apply lstrip_head.
Qed.

Lemma render_tokens_appends_witness :
  let pre := [tagged "a" "1" "en"] in
  let t := tagged " b" "2" "en" in
  current_speaker (render_loop pre) <> Some (token_speaker t)
  /\ render_tokens (pre ++ [t])
     = lit "Speaker 1:" ++ nl ++ lit "[en] a" ++ nl ++ nl
         ++ lit "Speaker 2:" ++ nl ++ lit "[en] b".
Proof.
  intros pre t.
  assert (H : current_speaker (render_loop pre) <> Some (token_speaker t))
    by discriminate.
  split; [exact H |].
  rewrite (proj1 (proj1 (proj2 (proj2 (render_tokens_appends pre t))) H)).
  reflexivity.
Defined.

(** ** Subtitle chunker *)

Lemma chunk_loop_snoc dur l t :
  chunk_loop dur (l ++ [t]) = chunk_step dur (chunk_loop dur l) t.
Proof. apply fold_left_snoc. Qed.

(** One step closes at most one chunk. *)
Lemma chunk_step_closed dur g t :
  fst (chunk_step dur g t) = fst g
  \/ exists c, snd g = Some c /\ fst (chunk_step dur g t) = fst g ++ [c].
Proof.
  destruct g as [closed [c |]]; unfold chunk_step;
    destruct (token_time_bounds t) as [s e]; cbn [fst snd].
  - destruct (e - ch_start_ms c <=? dur); cbn [fst]; eauto.
  - now left.
Qed.

Section CaptionFacts.

Variable stamp : Z -> str.

Lemma captions_closed_snoc index cs c :
  captions_closed stamp index (cs ++ [c])
  = captions_closed stamp index cs
      ++ caption stamp (index + Z.of_nat (length cs)) c ++ nl.
Proof.
  revert index. induction cs as [| c0 cs IH]; intros index.
  - cbn [app captions_closed length Z.of_nat].
    now rewrite Z.add_0_r, app_nil_r.
  - cbn [app captions_closed length]. rewrite IH, <- !app_assoc.
    replace (index + Z.of_nat (S (length cs)))
      with (index + 1 + Z.of_nat (length cs)) by lia.
    reflexivity.
Qed.

Lemma captions_snoc index cs c :
  captions stamp index (cs ++ [c])
  = captions_closed stamp index cs
      ++ caption stamp (index + Z.of_nat (length cs)) c.
Proof.
  revert index. induction cs as [| c0 cs IH]; intros index.
  - cbn [app captions captions_closed length Z.of_nat].
    now rewrite Z.add_0_r.
  - specialize (IH (index + 1)). destruct cs as [| c1 cs].
    + cbn [app captions captions_closed length]. rewrite <- !app_assoc.
      reflexivity.
    + change (captions stamp index ((c0 :: c1 :: cs) ++ [c]))
        with (caption stamp index c0 ++ nl
                ++ captions stamp (index + 1) ((c1 :: cs) ++ [c])).
      rewrite IH. cbn [captions_closed length]. rewrite <- !app_assoc.
      replace (index + Z.of_nat (S (S (length cs))))
        with (index + 1 + Z.of_nat (S (length cs))) by lia.
      reflexivity.
Qed.

End CaptionFacts.

Lemma chunk_loop_concat dur tokens :
  concat (map ch_tokens (fst (chunk_loop dur tokens)))
    ++ match snd (chunk_loop dur tokens) with
       | Some c => ch_tokens c
       | None => []
       end
  = map tok_text tokens.
Proof.
  induction tokens as [| t tokens IH] using rev_ind; [reflexivity |].
  rewrite chunk_loop_snoc, map_app. cbn [map]. rewrite <- IH.
  destruct (chunk_loop dur tokens) as [closed [c |]];
    unfold chunk_step; destruct (token_time_bounds t) as [s e];
    cbn [fst snd].
  - destruct (e - ch_start_ms c <=? dur); cbn [fst snd ch_tokens].
    + now rewrite app_assoc.
    + rewrite map_app, concat_app. cbn [map concat].
      now rewrite app_nil_r.
  - cbn [ch_tokens]. now rewrite app_nil_r.
Qed.

Lemma srt_chunks_concat tokens dur :
  concat (map ch_tokens (srt_chunks tokens dur)) = map tok_text tokens.
Proof.
  unfold srt_chunks. rewrite <- (chunk_loop_concat dur tokens).
  destruct (snd (chunk_loop dur tokens)) as [c |].
  - rewrite map_app, concat_app. cbn [map concat]. now rewrite app_nil_r.
  - now rewrite app_nil_r.
Qed.

Section SubtitleFacts.

Variable format_srt_time : Z -> option str.

Lemma srt_loop_snoc dur st l t :
  srt_loop format_srt_time dur st (l ++ [t])
  = match srt_loop format_srt_time dur st l with
    | Some st' => srt_step format_srt_time dur st' t
    | None => None
    end.
Proof.
  revert st. induction l as [| a l IH]; intros st; cbn [app srt_loop].
  - now destruct (srt_step format_srt_time dur st t).
  - destruct (srt_step format_srt_time dur st a); [apply IH | reflexivity].
Qed.

(** Writing a chunk raises exactly when one of its bounds cannot be
    formatted. *)
Lemma write_chunk_exact st sep c :
  chunk_start_ms st = Some (ch_start_ms c) ->
  chunk_end_ms st = Some (ch_end_ms c) ->
  write_chunk format_srt_time st sep
  = if chunk_formats format_srt_time c
    then Some (srt_parts st
               ++ [str_of_int (chunk_index st) ++ nl;
                   time_text format_srt_time (ch_start_ms c) ++ lit " --> "
                     ++ time_text format_srt_time (ch_end_ms c) ++ nl;
                   strip (concat (chunk_tokens st)) ++ sep])
    else None.
Proof.
  intros Hs He. unfold write_chunk, chunk_formats, formats, time_text.
  rewrite Hs, He.
  destruct (format_srt_time (ch_start_ms c)) as [a |];
    destruct (format_srt_time (ch_end_ms c)) as [b |]; reflexivity.
Qed.

(** One step of the chunker on a state that holds the ghost chunks: it
    raises exactly when it closes a chunk that cannot be formatted, and
    otherwise keeps holding the chunks. *)
Lemma srt_step_exact dur st g t :
  srt_matches (time_text format_srt_time) st g ->
  match srt_step format_srt_time dur st t with
  | Some st' =>
      srt_matches (time_text format_srt_time) st' (chunk_step dur g t)
      /\ forallb (chunk_formats format_srt_time) (fst (chunk_step dur g t))
         = forallb (chunk_formats format_srt_time) (fst g)
  | None =>
      forallb (chunk_formats format_srt_time) (fst (chunk_step dur g t))
      = false
  end.
Proof.
  destruct g as [closed open]. intros (Hp & Hi & Ho). cbn [fst snd] in *.
  unfold srt_step, chunk_step.
  destruct (token_time_bounds t) as [start_ms end_ms].
  destruct open as [c |].
  - destruct Ho as (Hs & He & Ht & Hne). rewrite Hs.
    destruct (end_ms - ch_start_ms c <=? dur).
    + split; [| reflexivity].
      repeat split; cbn; try assumption.
      * now rewrite Ht.
      * now destruct (ch_tokens c).
    + rewrite (write_chunk_exact st (nl ++ nl) c Hs He).
      cbn [fst]. rewrite forallb_app. cbn [forallb].
      destruct (chunk_formats format_srt_time c).
      * rewrite !andb_true_r. split; [| reflexivity].
        repeat split; cbn [fst snd srt_parts chunk_index chunk_tokens
                           chunk_start_ms chunk_end_ms ch_start_ms ch_end_ms
                           ch_tokens]; try discriminate.
        -- rewrite concat_app, Hp, captions_closed_snoc, Hi, Ht.
           unfold caption. cbn [concat]. rewrite <- !app_assoc. reflexivity.
        -- rewrite Hi, length_app. cbn [length]. lia.
      * cbn. now rewrite andb_false_r.
  - destruct Ho as (Hc & Hs & Ht). rewrite Hs.
    split; [| reflexivity].
    repeat split; cbn; try assumption; discriminate.
Qed.

(** The loop returns exactly when every chunk it closes can be formatted,
    and then its state holds the ghost chunks. *)
Lemma srt_loop_exact dur tokens :
  match srt_loop format_srt_time dur srt_init tokens with
  | Some st =>
      forallb (chunk_formats format_srt_time) (fst (chunk_loop dur tokens))
      = true
      /\ srt_matches (time_text format_srt_time) st (chunk_loop dur tokens)
  | None =>
      forallb (chunk_formats format_srt_time) (fst (chunk_loop dur tokens))
      = false
  end.
Proof.
  induction tokens as [| t tokens IH] using rev_ind.
  - cbn. repeat split.
  - rewrite srt_loop_snoc, chunk_loop_snoc.
    destruct (srt_loop format_srt_time dur srt_init tokens) as [st |].
    + destruct IH as [Hf Hm].
      pose proof (srt_step_exact dur t Hm) as Hstep.
      destruct (srt_step format_srt_time dur st t) as [st' |].
      * destruct Hstep as [Hm' Hf']. split; [now rewrite Hf' | exact Hm'].
      * exact Hstep.
    + destruct (chunk_step_closed dur (chunk_loop dur tokens) t)
        as [E | (c & _ & E)]; rewrite E; [exact IH |].
      rewrite forallb_app, IH. reflexivity.
Qed.

Lemma srt_step_anchored dur st st' pre t :
  anchored st pre ->
  srt_step format_srt_time dur st t = Some st' ->
  anchored st' (pre ++ [t]).
Proof.
  unfold anchored, srt_step.
  destruct (token_time_bounds t) as [start_ms end_ms] eqn:B.
  assert (Bs : start_ms = fst (token_time_bounds t)) by now rewrite B.
  destruct (chunk_start_ms st) as [cs |].
  - intros (before & first & rest & Hpre & Hcs & Htok).
    destruct (end_ms - cs <=? dur).
    + intros [= <-]. cbn.
      exists before, first, (rest ++ [t]). repeat split.
      * rewrite Hpre, <- app_assoc. reflexivity.
      * exact Hcs.
      * rewrite Htok. cbn. now rewrite map_app.
    + destruct (write_chunk format_srt_time st (nl ++ nl)); [| discriminate].
      intros [= <-]. cbn. exists pre, t, []. repeat split. exact Bs.
  - intros -> [= <-]. cbn. exists [], t, []. repeat split. exact Bs.
Qed.

Lemma srt_loop_anchored dur tokens st :
  srt_loop format_srt_time dur srt_init tokens = Some st ->
  anchored st tokens.
Proof.
  revert st. induction tokens as [| t tokens IH] using rev_ind; intros st.
  - intros [= <-]. reflexivity.
  - rewrite srt_loop_snoc.
    destruct (srt_loop format_srt_time dur srt_init tokens) as [st0 |];
      [| discriminate].
    intros H. eapply srt_step_anchored; [apply IH; reflexivity | exact H].
Qed.

(** C3: the duration test of the chunker at its boundary.
    After a non-empty prefix whose closed chunks could all be formatted, a
    chunk is open and its anchor [cs] is the resolved start of the token that
    opened it.  A next token whose resolved end is [cs + chunk_duration_ms]
    (or less) is appended to the open chunk, whose anchor does not move; no
    time is formatted.  A next token whose resolved end is one millisecond
    more (or later still) is never added to the open chunk: the loop writes
    that chunk without the token and opens the next chunk with the token
    alone when the formatter returns on the chunk's start and end, and the
    call raises when it does not. *)
Theorem chunk_duration_boundary (chunk_duration_ms : Z)
  (pre : list token) (t : token) :
  pre <> [] ->
  forallb (chunk_formats format_srt_time)
          (fst (chunk_loop chunk_duration_ms pre)) = true ->
  exists st cs ce,
    srt_loop format_srt_time chunk_duration_ms srt_init pre = Some st
    /\ chunk_start_ms st = Some cs
    /\ chunk_end_ms st = Some ce
    /\ (exists before first rest,
          pre = before ++ first :: rest
          /\ cs = fst (token_time_bounds first)
          /\ chunk_tokens st = map tok_text (first :: rest))
    /\ let end_ms := snd (token_time_bounds t) in
       let after :=
         srt_loop format_srt_time chunk_duration_ms srt_init (pre ++ [t]) in
       let stays :=
         Some {| srt_parts := srt_parts st;
                 chunk_index := chunk_index st;
                 chunk_tokens := chunk_tokens st ++ [tok_text t];
                 chunk_start_ms := Some cs;
                 chunk_end_ms := Some end_ms |} in
       let closes :=
         match format_srt_time cs, format_srt_time ce with
         | Some start, Some end_ =>
             Some {| srt_parts :=
                       srt_parts st
                       ++ [str_of_int (chunk_index st) ++ [10%N];
                           start ++ lit " --> " ++ end_ ++ [10%N];
                           strip (concat (chunk_tokens st))
                             ++ [10%N; 10%N]];
                     chunk_index := chunk_index st + 1;
                     chunk_tokens := [tok_text t];
                     chunk_start_ms := Some (fst (token_time_bounds t));
                     chunk_end_ms := Some end_ms |}
         | _, _ => None
         end in
       (end_ms = cs + chunk_duration_ms -> after = stays)
       /\ (end_ms = cs + chunk_duration_ms + 1 -> after = closes)
       /\ (end_ms <= cs + chunk_duration_ms -> after = stays)
       /\ (end_ms > cs + chunk_duration_ms -> after = closes).
Proof.
  intros Hne Hfmt.
  pose proof (srt_loop_exact chunk_duration_ms pre) as Hex.
  destruct (srt_loop format_srt_time chunk_duration_ms srt_init pre)
    as [st |] eqn:Hl; [| congruence].
  destruct Hex as [_ Hm].
  pose proof (srt_loop_anchored _ _ Hl) as Ha. unfold anchored in Ha.
  destruct Hm as (_ & _ & Ho).
  destruct (chunk_start_ms st) as [cs |] eqn:Hcs; [| contradiction].
  destruct (snd (chunk_loop chunk_duration_ms pre)) as [c |];
    [| destruct Ho as (_ & [=] & _)].
  destruct Ho as (_ & He & _).
  exists st, cs, (ch_end_ms c).
  split; [reflexivity |]. split; [exact Hcs |]. split; [exact He |].
  split; [exact Ha |].
  intros end_ms after stays closes.
  assert (Hstay : end_ms <= cs + chunk_duration_ms -> after = stays).
  { intros Hle. unfold after. rewrite srt_loop_snoc, Hl. unfold srt_step.
    unfold end_ms in Hle. unfold stays, end_ms.
    destruct (token_time_bounds t) as [s e]. cbn [fst snd] in *.
    rewrite Hcs. destruct (Z.leb_spec (e - cs) chunk_duration_ms); [| lia].
    reflexivity. }
  assert (Hclose : end_ms > cs + chunk_duration_ms -> after = closes).
  { intros Hgt. unfold after. rewrite srt_loop_snoc, Hl. unfold srt_step.
    unfold end_ms in Hgt. unfold closes, end_ms.
    destruct (token_time_bounds t) as [s e]. cbn [fst snd] in *.
    rewrite Hcs. destruct (Z.leb_spec (e - cs) chunk_duration_ms); [lia |].
    unfold write_chunk. rewrite Hcs, He.
    destruct (format_srt_time cs) as [a |];
      destruct (format_srt_time (ch_end_ms c)) as [b |]; reflexivity. }
  repeat split.
  - intros E. apply Hstay. lia.
  - intros E. apply Hclose. lia.
  - exact Hstay.
  - exact Hclose.
Qed.

(** The document, exactly: the call raises when some chunk cannot be
    formatted, and otherwise returns the captions of all chunks. *)
Lemma tokens_to_srt_exact tokens dur :
  tokens_to_srt format_srt_time tokens dur
  = if forallb (chunk_formats format_srt_time) (srt_chunks tokens dur)
    then Some (captions (time_text format_srt_time) 1 (srt_chunks tokens dur))
    else None.
Proof.
  destruct tokens as [| t0 tokens0] eqn:Et; [reflexivity |].
  rewrite <- Et.
  pose proof (srt_loop_exact dur tokens) as Hex.
  unfold tokens_to_srt, srt_chunks. rewrite Et at 1.
  destruct (srt_loop format_srt_time dur srt_init tokens) as [st |].
  - destruct Hex as [Hf (Hp & Hi & Ho)].
    destruct (chunk_loop dur tokens) as [closed [c |]]; cbn [fst snd] in *.
    + destruct Ho as (Hs & He & Htk & Hne).
      destruct (chunk_tokens st) as [| x xs] eqn:Ec;
        [now rewrite <- Htk in Hne |].
      rewrite (write_chunk_exact st nl c Hs He), Ec, Htk.
      rewrite forallb_app, Hf. cbn [forallb andb].
      rewrite andb_true_r.
      destruct (chunk_formats format_srt_time c); [| reflexivity].
      rewrite captions_snoc, concat_app, Hp, Hi. unfold caption.
      cbn [concat]. rewrite <- !app_assoc. reflexivity.
    + destruct Ho as (-> & _ & ->). cbn in Hp. cbn. now rewrite Hp.
  - destruct (chunk_loop dur tokens) as [closed [c |]]; cbn [fst snd] in *.
    + rewrite forallb_app, Hex. reflexivity.
    + now rewrite Hex.
Qed.



End SubtitleFacts.

Lemma chunk_duration_boundary_witness :
  let first := spoken " Hi " "1" 0 500 in
  let on_bound := spoken "there" "1" 600 5000 in
  let past_bound := spoken "there" "1" 600 5001 in
  [first] <> []
  /\ forallb (chunk_formats format_srt_time_exact)
             (fst (chunk_loop 5000 [first])) = true
  /\ srt_loop format_srt_time_exact 5000 srt_init ([first] ++ [on_bound])
     = Some {| srt_parts := [];
               chunk_index := 1;
               chunk_tokens := [lit " Hi "; lit "there"];
               chunk_start_ms := Some 0;
               chunk_end_ms := Some 5000 |}
  /\ srt_loop format_srt_time_exact 5000 srt_init ([first] ++ [past_bound])
     = Some {| srt_parts := [lit "1" ++ nl;
                             lit "00:00:00,000 --> 00:00:00,500" ++ nl;
                             lit "Hi" ++ nl ++ nl];
               chunk_index := 2;
               chunk_tokens := [lit "there"];
               chunk_start_ms := Some 600;
               chunk_end_ms := Some 5001 |}.
Proof.
  intros first on_bound past_bound.
  assert (H1 : [first] <> []) by discriminate.
  assert (H2 : forallb (chunk_formats format_srt_time_exact)
                       (fst (chunk_loop 5000 [first])) = true)
    by reflexivity.
  split; [exact H1 |]. split; [exact H2 |]. split.
  - destruct (@chunk_duration_boundary format_srt_time_exact 5000 [first]
                on_bound H1 H2)
      as (st & cs & ce & Hl & Hcs & Hce & _ & Hb).
    cbv zeta in Hb. destruct Hb as (Hstay & _).
    injection Hl as <-. injection Hcs as <-.
    rewrite (Hstay eq_refl). reflexivity.
  - destruct (@chunk_duration_boundary format_srt_time_exact 5000 [first]
                past_bound H1 H2)
      as (st & cs & ce & Hl & Hcs & Hce & _ & Hb).
    cbv zeta in Hb. destruct Hb as (_ & Hclose & _).
    injection Hl as <-. injection Hcs as <-. injection Hce as <-.
    rewrite (Hclose eq_refl). vm_compute. reflexivity.
Defined.

(** A token past the bound does not always open the next chunk: here the
    open chunk ends at a time no float can hold (its only token has that
    end) and the next token ends one millisecond past the bound; the call
    raises while writing the open chunk, and no chunk is opened. *)
Lemma chunk_duration_boundary_counterexample :
  let pre := [spoken "a" "1" 0 huge_ms] in
  let t := spoken "b" "1" 600 5001 in
  (exists st,
      srt_loop format_srt_time_exact 5000 srt_init pre = Some st
      /\ chunk_start_ms st = Some 0)
  /\ snd (token_time_bounds t) = 0 + 5000 + 1
  /\ srt_loop format_srt_time_exact 5000 srt_init (pre ++ [t]) = None
  /\ tokens_to_srt format_srt_time_exact (pre ++ [t]) 5000 = None.
Proof.
  intros pre t. split.
  - eexists. split; reflexivity.
  - split; [reflexivity |]. split; vm_compute; reflexivity.
Qed.


(* ===================================================================== *)
(** * Further properties of the segmenter *)
(* ===================================================================== *)

(** The output after one more token, from the output before it. *)
Lemma group_snoc_cases gap_ms l t front c :
  group_tokens_by_speaker l gap_ms = front ++ [c] ->
  (speaker_changed c t || long_pause gap_ms c t = true
   /\ group_tokens_by_speaker (l ++ [t]) gap_ms
      = front ++ [c; new_segment t])
  \/ (speaker_changed c t || long_pause gap_ms c t = false
      /\ group_tokens_by_speaker (l ++ [t]) gap_ms
         = front ++ [extend_segment c t]).
Proof.
  intros H. apply group_output_state in H.
  unfold group_tokens_by_speaker. rewrite group_loop_snoc, H.
  cbn [group_step].
  destruct (speaker_changed c t || long_pause gap_ms c t); [left | right];
    split; try reflexivity; unfold group_finish; cbn [fst snd].
  now rewrite <- app_assoc.
Qed.

Lemma group_nonempty gap_ms l :
  l <> [] ->
  exists front c, group_tokens_by_speaker l gap_ms = front ++ [c].
Proof.
  intros Hne. unfold group_tokens_by_speaker, group_finish.
  destruct (group_loop gap_ms l) as [segs [c |]] eqn:E; cbn [fst snd].
  - eauto.
  - exfalso. apply Hne, (group_loop_none gap_ms). now rewrite E.
Qed.

Lemma group_step_text gap_ms st t :
  concat (map seg_text (group_finish (group_step gap_ms st t)))
  = concat (map seg_text (group_finish st)) ++ tok_text t.
Proof.
  destruct st as [segs [cur |]]; unfold group_finish, group_step; cbn [fst snd].
  - destruct (speaker_changed cur t || long_pause gap_ms cur t); cbn [fst snd].
    + rewrite (map_app seg_text (segs ++ [cur])). cbn [map].
      now rewrite concat_snoc.
    + rewrite !map_app. cbn [map]. rewrite !concat_snoc.
      cbn [extend_segment seg_text]. now rewrite app_assoc.
  - rewrite map_app. cbn [map]. now rewrite concat_snoc.
Qed.

(** X1: The segment texts, put end to end, are the token texts put end to end:
    no character is lost, added or moved. *)
Theorem segmentation_preserves_text (tokens : list token) (gap_ms : Z) :
  concat (map seg_text (group_tokens_by_speaker tokens gap_ms))
  = concat (map tok_text tokens).
Proof.
  unfold group_tokens_by_speaker.
  induction tokens as [| t tokens IH] using rev_ind; [reflexivity |].
  rewrite group_loop_snoc, group_step_text, IH.
  rewrite map_app. cbn [map]. now rewrite concat_snoc.
Qed.

(** X2: A token whose speaker differs from the current segment's always starts
    a new segment, however short the pause and whatever [gap_ms] is. *)
Theorem speaker_change_always_splits
  (tokens : list token) (gap_ms : Z) (t : token)
  (segs : list segment) (cur : segment) :
  group_tokens_by_speaker tokens gap_ms = segs ++ [cur] ->
  token_speaker t <> seg_speaker cur ->
  group_tokens_by_speaker (tokens ++ [t]) gap_ms
  = segs ++ [cur; new_segment t].
Proof.
  intros Hout Hspk.
  destruct (@group_snoc_cases gap_ms tokens t segs cur Hout)
    as [[_ H] | [Hc _]]; [exact H |].
  unfold speaker_changed in Hc.
  destruct (str_eq_dec (token_speaker t) (seg_speaker cur));
    [contradiction | discriminate].
Qed.

Lemma speaker_change_always_splits_witness :
  let first := spoken "Hi " "1" 0 500 in
  let other := spoken "Yes" "2" 500 900 in
  group_tokens_by_speaker [first] 1000000 = [] ++ [new_segment first]
  /\ token_speaker other <> seg_speaker (new_segment first)
  /\ group_tokens_by_speaker ([first] ++ [other]) 1000000
     = [] ++ [new_segment first; new_segment other].
Proof.
  intros first other.
  assert (H1 : group_tokens_by_speaker [first] 1000000
               = [] ++ [new_segment first]) by reflexivity.
  assert (H2 : token_speaker other <> seg_speaker (new_segment first))
    by discriminate.
  split; [exact H1 |]. split; [exact H2 |].
  exact (@speaker_change_always_splits [first] 1000000 other []
            (new_segment first) H1 H2).
Defined.

Lemma segment_grown_refl cur : segment_grown cur cur.
Proof.
  repeat split; try lia. exists []. now rewrite app_nil_r.
Qed.

Lemma segment_grown_extend cur cur' t :
  segment_grown cur cur' -> segment_grown cur (extend_segment cur' t).
Proof.
  intros (Hs & Hb & He & extra & Ht). repeat split; cbn; try assumption.
  - lia.
  - exists (extra ++ tok_text t). now rewrite Ht, app_assoc.
Qed.

(** X3: Segmentation works as a stream: reading more tokens leaves the
    segments already finished untouched, and the segment that was current
    can only grow (same speaker and start, later or equal end, longer
    text). *)
Theorem finished_segments_are_stable
  (tokens more : list token) (gap_ms : Z)
  (segs : list segment) (cur : segment) :
  group_tokens_by_speaker tokens gap_ms = segs ++ [cur] ->
  exists cur' tail,
    group_tokens_by_speaker (tokens ++ more) gap_ms = segs ++ cur' :: tail
    /\ segment_grown cur cur'.
Proof.
  intros Hout.
  induction more as [| t more IH] using rev_ind.
  - exists cur, []. rewrite app_nil_r. split; [exact Hout |].
    apply segment_grown_refl.
  - destruct IH as (cur' & tail & Hm & Hg). rewrite app_assoc.
    destruct tail as [| x tail0].
    + destruct (@group_snoc_cases gap_ms (tokens ++ more) t segs cur' Hm)
        as [[_ H] | [_ H]]; rewrite H.
      * exists cur', [new_segment t]. now split.
      * exists (extend_segment cur' t), []. split; [reflexivity |].
        now apply segment_grown_extend.
    + assert (Hne : x :: tail0 <> []) by discriminate.
      destruct (exists_last Hne) as (tail' & c & Ht). rewrite Ht in Hm.
      replace (segs ++ cur' :: tail' ++ [c])
        with ((segs ++ cur' :: tail') ++ [c]) in Hm
        by now rewrite <- app_assoc.
      destruct (@group_snoc_cases gap_ms (tokens ++ more) t _ c Hm)
        as [[_ H] | [_ H]]; rewrite H, <- app_assoc; cbn [app].
      * exists cur', (tail' ++ [c; new_segment t]). now split.
      * exists cur', (tail' ++ [extend_segment c t]). now split.
Qed.

Lemma finished_segments_are_stable_witness :
  let first := spoken "Hi " "1" 0 500 in
  let second := spoken "there" "1" 600 1000 in
  let third := spoken "Yes" "2" 1000 1200 in
  group_tokens_by_speaker [first] 1500 = [] ++ [new_segment first]
  /\ exists cur' tail,
       group_tokens_by_speaker ([first] ++ [second; third]) 1500
       = [] ++ cur' :: tail
       /\ segment_grown (new_segment first) cur'.
Proof.
  intros first second third.
  assert (H : group_tokens_by_speaker [first] 1500
              = [] ++ [new_segment first]) by reflexivity.
  split; [exact H |].
  exact (@finished_segments_are_stable [first] [second; third] 1500 []
            (new_segment first) H).
Defined.

Lemma group_step_length gap_ms st t :
  (length (group_finish (group_step gap_ms st t))
   <= S (length (group_finish st)))%nat.
Proof.
  destruct st as [segs [cur |]]; unfold group_finish, group_step; cbn [fst snd].
  - destruct (speaker_changed cur t || long_pause gap_ms cur t);
      cbn [fst snd]; rewrite !length_app; cbn [length]; lia.
  - rewrite length_app. cbn [length]. lia.
Qed.

(** X4: There are never more segments than tokens, and there is no segment
    only when there is no token. *)
Theorem segment_count_bounds (tokens : list token) (gap_ms : Z) :
  (length (group_tokens_by_speaker tokens gap_ms) <= length tokens)%nat
  /\ (group_tokens_by_speaker tokens gap_ms = [] <-> tokens = []).
Proof.
  split.
  - unfold group_tokens_by_speaker.
    induction tokens as [| t tokens IH] using rev_ind; [cbn; lia |].
    rewrite group_loop_snoc, length_app. cbn [length].
    pose proof (group_step_length gap_ms (group_loop gap_ms tokens) t). lia.
  - split; [| now intros ->].
    intros H. destruct tokens as [| t0 tokens0]; [reflexivity |].
    assert (Hne : t0 :: tokens0 <> []) by discriminate.
    destruct (group_nonempty gap_ms Hne) as (front & c & E).
    rewrite E in H. now destruct front.
Qed.

(** How the loop states for two gaps compare when [g1 <= g2]. *)
Lemma group_loop_gap_mono g1 g2 l :
  g1 <= g2 ->
  match group_loop g1 l, group_loop g2 l with
  | (s1, Some c1), (s2, Some c2) =>
      (length s2 <= length s1)%nat
      /\ seg_speaker c1 = seg_speaker c2
      /\ seg_end_ms c1 <= seg_end_ms c2
  | (s1, None), (s2, None) => s1 = [] /\ s2 = []
  | _, _ => False
  end.
Proof.
  intros Hg. induction l as [| t l IH] using rev_ind; [now cbn |].
  rewrite !group_loop_snoc.
  destruct (group_loop g1 l) as [s1 [c1 |]], (group_loop g2 l) as [s2 [c2 |]];
    try contradiction.
  - destruct IH as (Hl & Hs & He). cbn [group_step].
    assert (Hc : speaker_changed c1 t = speaker_changed c2 t)
      by (unfold speaker_changed; now rewrite Hs).
    destruct (speaker_changed c2 t || long_pause g2 c2 t) eqn:E2.
    + assert (E1 : speaker_changed c1 t || long_pause g1 c1 t = true).
      { apply orb_true_iff in E2. apply orb_true_iff.
        destruct E2 as [E2 | E2]; [left; congruence | right].
        unfold long_pause in *. apply Z.gtb_lt in E2. apply Z.gtb_lt. lia. }
      rewrite E1. rewrite !length_app. cbn [length].
      repeat split; try lia.
    + apply orb_false_iff in E2. destruct E2 as [E2 _].
      destruct (speaker_changed c1 t || long_pause g1 c1 t).
      * rewrite length_app. cbn [length]. repeat split.
        -- lia.
        -- cbn. unfold speaker_changed in E2.
           destruct (str_eq_dec (token_speaker t) (seg_speaker c2));
             [assumption | discriminate].
        -- cbn. lia.
      * repeat split; cbn; try assumption. lia.
  - cbn [group_step]. destruct IH as [-> ->]. repeat split; cbn; lia.
Qed.

(** X5: Raising [gap_ms] never gives more segments. *)
Theorem larger_gap_fewer_segments (tokens : list token) (g1 g2 : Z) :
  g1 <= g2 ->
  (length (group_tokens_by_speaker tokens g2)
   <= length (group_tokens_by_speaker tokens g1))%nat.
Proof.
  intros Hg. pose proof (@group_loop_gap_mono g1 g2 tokens Hg) as H.
  unfold group_tokens_by_speaker, group_finish.
  destruct (group_loop g1 tokens) as [s1 [c1 |]],
           (group_loop g2 tokens) as [s2 [c2 |]];
    try contradiction; cbn [fst snd].
  - destruct H as (Hl & _). rewrite !length_app. cbn [length]. lia.
  - destruct H as [-> ->]. cbn. lia.
Qed.

Lemma larger_gap_fewer_segments_witness :
  let tokens := [spoken "Hi " "1" 0 500; spoken "there" "1" 3000 3400] in
  1500 <= 2500
  /\ (length (group_tokens_by_speaker tokens 2500)
      <= length (group_tokens_by_speaker tokens 1500))%nat.
Proof.
  intros tokens.
  assert (H : 1500 <= 2500) by (intros C; discriminate C).
  split; [exact H |].
  exact (@larger_gap_fewer_segments tokens 1500 2500 H).
Defined.

(** A property of segments that holds for a fresh segment of a token with
    [Q] and survives the merge of such a token holds for every segment
    of the output. *)
Lemma group_forall gap_ms (Q : token -> Prop) (P : segment -> Prop) :
  (forall t, Q t -> P (new_segment t)) ->
  (forall cur t, P cur -> Q t -> P (extend_segment cur t)) ->
  forall l, Forall Q l -> Forall P (group_tokens_by_speaker l gap_ms).
Proof.
  intros Hnew Hext l. unfold group_tokens_by_speaker.
  induction l as [| t l IH] using rev_ind; intros HQ.
  - constructor.
  - apply Forall_app in HQ. destruct HQ as [HQl HQt].
    inversion HQt as [| ? ? Qt _]; subst.
    specialize (IH HQl). rewrite group_loop_snoc.
    destruct (group_loop gap_ms l) as [segs [cur |]];
      unfold group_finish in *; cbn [fst snd group_step] in *.
    + apply Forall_app in IH. destruct IH as [Hs Hc].
      inversion Hc as [| ? ? Pc _]; subst.
      destruct (speaker_changed cur t || long_pause gap_ms cur t);
        cbn [fst snd]; repeat (apply Forall_app; split);
        auto using Forall_cons, Forall_nil.
    + apply Forall_app. split; auto using Forall_cons, Forall_nil.
Qed.

Lemma token_speaker_nonempty t : token_speaker t <> [].
Proof.
  unfold token_speaker, str_or.
  destruct (tok_speaker t) as [[| c s] |]; discriminate.
Qed.

(** X6: No segment has an empty speaker label: a token whose speaker is absent
    or the empty string counts as speaker [unknown], and a segment made of
    such tokens is labelled [unknown]. *)
Theorem segment_speaker_never_empty (tokens : list token) (gap_ms : Z) :
  Forall (fun seg => seg_speaker seg <> [])
         (group_tokens_by_speaker tokens gap_ms)
  /\ (Forall (fun t => tok_speaker t = None \/ tok_speaker t = Some [])
             tokens ->
      Forall (fun seg => seg_speaker seg = lit "unknown")
             (group_tokens_by_speaker tokens gap_ms)).
Proof.
  split.
  - apply (@group_forall gap_ms (fun _ => True)).
    + intros t _. apply token_speaker_nonempty.
    + intros cur t H _. exact H.
    + apply Forall_forall. auto.
  - apply group_forall.
    + intros t [H | H]; cbn; unfold token_speaker; now rewrite H.
    + intros cur t H _. exact H.
Qed.

Lemma segment_speaker_never_empty_witness :
  let anonymous :=
    {| tok_text := lit "hm"; tok_speaker := Some []; tok_language := None;
       tok_start_ms := None; tok_end_ms := None; tok_duration_ms := None |} in
  Forall (fun t => tok_speaker t = None \/ tok_speaker t = Some [])
         [token_E; anonymous]
  /\ Forall (fun seg => seg_speaker seg = lit "unknown")
            (group_tokens_by_speaker [token_E; anonymous] 1500).
Proof.
  intros anonymous.
  assert (H : Forall (fun t => tok_speaker t = None \/ tok_speaker t = Some [])
                     [token_E; anonymous]).
  { constructor; [left; reflexivity |].
    constructor; [right; reflexivity | constructor]. }
  split; [exact H |].
  exact (proj2 (segment_speaker_never_empty [token_E; anonymous] 1500) H).
Defined.

(** X7: When every token ends no earlier than it starts, so does every
    segment. *)
Theorem segments_end_after_start (tokens : list token) (gap_ms : Z) :
  Forall (fun t => fst (token_time_bounds t) <= snd (token_time_bounds t))
         tokens ->
  Forall (fun seg => seg_start_ms seg <= seg_end_ms seg)
         (group_tokens_by_speaker tokens gap_ms).
Proof.
  apply group_forall.
  - intros t H. exact H.
  - intros cur t H _. cbn. lia.
Qed.

Lemma segments_end_after_start_witness :
  let tokens := [spoken "Hi " "1" 0 500; token_E] in
  Forall (fun t => fst (token_time_bounds t) <= snd (token_time_bounds t))
         tokens
  /\ Forall (fun seg => seg_start_ms seg <= seg_end_ms seg)
            (group_tokens_by_speaker tokens 1500).
Proof.
  intros tokens.
  assert (H : Forall (fun t => fst (token_time_bounds t)
                               <= snd (token_time_bounds t)) tokens).
  { repeat constructor; intros C; discriminate C. }
  split; [exact H |].
  exact (@segments_end_after_start tokens 1500 H).
Defined.

(** A property of a segment and its run that holds when a token opens a
    segment and survives every merge holds for all pairs of the output. *)
Lemma segment_runs_forall gap_ms (P : segment * list token -> Prop) :
  (forall t, P (new_segment t, [t])) ->
  (forall cur run t,
      P (cur, run) ->
      speaker_changed cur t || long_pause gap_ms cur t = false ->
      P (extend_segment cur t, run ++ [t])) ->
  forall l, Forall P (segment_runs l gap_ms).
Proof.
  intros Hnew Hext l.
  assert (H : Forall P (fst (run_loop gap_ms l))
              /\ match snd (run_loop gap_ms l) with
                 | Some p => P p
                 | None => True
                 end).
  { induction l as [| t l IH] using rev_ind; [split; cbn; auto |].
    rewrite run_loop_snoc.
    destruct (run_loop gap_ms l) as [fin [[cur run] |]];
      destruct IH as [Hf Hc]; cbn [fst snd run_step] in *.
    - destruct (speaker_changed cur t || long_pause gap_ms cur t) eqn:E;
        split; cbn [fst snd]; auto.
      apply Forall_app. split; [exact Hf | now constructor].
    - split; cbn [fst snd]; auto. }
  unfold segment_runs. destruct H as [Hf Hc].
  destruct (snd (run_loop gap_ms l)) as [p |]; [| exact Hf].
  apply Forall_app. split; [exact Hf | now constructor].
Qed.

Lemma run_fields_new t : run_fields (new_segment t, [t]).
Proof.
  exists t, []. cbn. rewrite app_nil_r. repeat split. now constructor.
Qed.

Lemma run_fields_extend gap_ms cur run t :
  run_fields (cur, run) ->
  speaker_changed cur t || long_pause gap_ms cur t = false ->
  run_fields (extend_segment cur t, run ++ [t]).
Proof.
  intros (first & rest & Hr & Hs & Hb & Ht & Hall) Hc.
  cbn [fst snd] in *. subst run.
  exists first, (rest ++ [t]). cbn [fst snd extend_segment seg_speaker
                                    seg_start_ms seg_text].
  repeat split; try assumption.
  - rewrite Ht, map_app. cbn [map]. now rewrite concat_snoc.
  - apply Forall_app. split; [exact Hall |].
    constructor; [| constructor].
    apply orb_false_iff in Hc. destruct Hc as [Hc _].
    unfold speaker_changed in Hc.
    destruct (str_eq_dec (token_speaker t) (seg_speaker cur));
      [assumption | discriminate].
Qed.

(** X8: A segment takes its speaker and its start from the first token of its
    run, its text is the texts of the run put end to end, and every token of
    the run has the segment's speaker. *)
Theorem segment_fields_from_run
  (tokens : list token) (gap_ms : Z) (seg : segment) (run : list token) :
  In (seg, run) (segment_runs tokens gap_ms) ->
  exists first rest,
    run = first :: rest
    /\ seg_speaker seg = token_speaker first
    /\ seg_start_ms seg = fst (token_time_bounds first)
    /\ seg_text seg = concat (map tok_text run)
    /\ Forall (fun t => token_speaker t = seg_speaker seg) run.
Proof.
  intros Hin.
  pose proof (@segment_runs_forall gap_ms run_fields run_fields_new
                (@run_fields_extend gap_ms) tokens) as H.
  rewrite Forall_forall in H. exact (H _ Hin).
Qed.

Lemma segment_fields_from_run_witness :
  let first := spoken "Hi " "1" 0 500 in
  let second := spoken "there" "1" 600 1000 in
  let third := spoken "Yes" "2" 1000 1200 in
  In (extend_segment (new_segment first) second, [first; second])
     (segment_runs [first; second; third] 1500)
  /\ exists first' rest,
       [first; second] = first' :: rest
       /\ seg_speaker (extend_segment (new_segment first) second)
          = token_speaker first'
       /\ seg_start_ms (extend_segment (new_segment first) second)
          = fst (token_time_bounds first')
       /\ seg_text (extend_segment (new_segment first) second)
          = concat (map tok_text [first; second])
       /\ Forall (fun t => token_speaker t
                           = seg_speaker
                               (extend_segment (new_segment first) second))
                 [first; second].
Proof.
  intros first second third.
  assert (Hin : In (extend_segment (new_segment first) second, [first; second])
                   (segment_runs [first; second; third] 1500))
    by (left; reflexivity).
  split; [exact Hin |].
  exact (@segment_fields_from_run [first; second; third] 1500 _ _ Hin).
Defined.

(** ** The duration reported by [main] *)

Lemma main_duration_ms_snoc l t :
  main_duration_ms (l ++ [t]) = snd (token_time_bounds t).
Proof.
  destruct l as [| t0 l]; [reflexivity |].
  cbn [app main_duration_ms]. now rewrite last_last.
Qed.

(** X10: The [duration_ms] that [main] writes next to the speaker segments is
    the resolved end of the last token; it is never later than the end of the
    last segment, and it is 0 when there is no token. *)
Theorem main_duration_within_last_segment (tokens : list token) (gap_ms : Z) :
  main_duration_ms [] = 0
  /\ (tokens <> [] ->
      exists front c,
        group_tokens_by_speaker tokens gap_ms = front ++ [c]
        /\ main_duration_ms tokens <= seg_end_ms c).
Proof.
  split; [reflexivity |].
  intros Hne. destruct (exists_last Hne) as (l & t & ->).
  rewrite main_duration_ms_snoc.
  destruct l as [| t0 l0] eqn:El.
  - exists [], (new_segment t). split; [reflexivity | cbn; lia].
  - rewrite <- El.
    assert (Hl : l <> []) by (rewrite El; discriminate).
    destruct (group_nonempty gap_ms Hl) as (front & c & E).
    destruct (@group_snoc_cases gap_ms l t front c E) as [[_ H] | [_ H]];
      rewrite H.
    + exists (front ++ [c]), (new_segment t).
      split; [now rewrite <- app_assoc | cbn; lia].
    + exists front, (extend_segment c t). split; [reflexivity | cbn; lia].
Qed.

Lemma main_duration_within_last_segment_witness :
  let tokens := [spoken "Hi " "1" 0 900; spoken "there" "1" 600 800] in
  tokens <> []
  /\ exists front c,
       group_tokens_by_speaker tokens 1500 = front ++ [c]
       /\ main_duration_ms tokens <= seg_end_ms c.
Proof.
  intros tokens.
  assert (H : tokens <> []) by discriminate.
  split; [exact H |].
  exact (proj2 (main_duration_within_last_segment tokens 1500) H).
Defined.

(* ===================================================================== *)
(** * Further properties of the plain transcript *)
(* ===================================================================== *)

Lemma render_step_parts st t :
  exists extra, text_parts (render_step st t) = text_parts st ++ extra.
Proof.
  unfold render_step, render_language, render_speaker.
  destruct (opt_str_eq_dec (Some (token_speaker t)) (current_speaker st));
    destruct (tok_language t) as [l |]; cbn [text_parts current_language].
  - destruct (opt_str_eq_dec (Some l) (current_language st));
      cbn [text_parts]; eauto.
  - eauto.
  - destruct (opt_str_eq_dec (Some l) None); cbn [text_parts];
      destruct (current_speaker st); rewrite <- ?app_assoc; eauto.
  - destruct (current_speaker st); rewrite <- ?app_assoc; eauto.
Qed.

(** The first token always writes the header of its speaker first. *)
Lemma render_first_token t :
  exists body,
    text_parts (render_loop [t]) = speaker_header (token_speaker t) :: body.
Proof.
  unfold render_loop. cbn [fold_left].
  unfold render_step, render_speaker. cbn [render_init current_speaker].
  destruct (opt_str_eq_dec (Some (token_speaker t)) None); [discriminate |].
  unfold render_language. cbn [text_parts current_language].
  destruct (tok_language t) as [l |].
  - destruct (opt_str_eq_dec (Some l) None); [discriminate |].
    cbn [text_parts render_init app]. eauto.
  - cbn [text_parts render_init app]. eauto.
Qed.

(** X11: the plain transcript is written front to back: the transcript of the
    first tokens is a prefix of the transcript of all of them, and the
    transcript of a non-empty token list starts with the header
    [Speaker <id>:] of its first token's speaker. *)
Theorem render_tokens_append_only (pre more : list token) :
  (exists extra, render_tokens (pre ++ more) = render_tokens pre ++ extra)
  /\ (forall t rest,
        pre = t :: rest ->
        exists extra,
          render_tokens (pre ++ more)
          = lit "Speaker " ++ token_speaker t ++ lit ":" ++ extra).
Proof.
  assert (H : forall p m,
             exists extra, render_tokens (p ++ m) = render_tokens p ++ extra).
  { intros p m. induction m as [| x m IH] using rev_ind.
    - exists []. now rewrite !app_nil_r.
    - destruct IH as (extra & IH). rewrite app_assoc.
      unfold render_tokens in *. rewrite render_loop_snoc.
      destruct (render_step_parts (render_loop (p ++ m)) x) as (e & He).
      rewrite He, concat_app, IH. exists (extra ++ concat e).
      now rewrite app_assoc. }
  split; [apply H |].
  intros t rest ->.
  destruct (H [t] (rest ++ more)) as (extra & He).
  change ((t :: rest) ++ more) with ([t] ++ rest ++ more). rewrite He.
  destruct (render_first_token t) as (body & Hb).
  unfold render_tokens. rewrite Hb. cbn [concat].
  exists (concat body ++ extra). unfold speaker_header.
  now rewrite <- !app_assoc.
Qed.

Lemma render_tokens_append_only_witness :
  let first := tagged "bonjour" "2" "fr" in
  let pre := [first; spoken " there" "2" 600 1000] in
  pre = first :: [spoken " there" "2" 600 1000]
  /\ exists extra,
       render_tokens (pre ++ [spoken "Yes" "1" 1000 1200])
       = lit "Speaker 2:" ++ extra.
Proof.
  intros first pre.
  assert (H : pre = first :: [spoken " there" "2" 600 1000]) by reflexivity.
  split; [exact H |].
  exact (proj2 (render_tokens_append_only pre [spoken "Yes" "1" 1000 1200])
               first _ H).
Defined.

Lemma render_step_same_fields st a b :
  same_plain_fields a b -> render_step st a = render_step st b.
Proof.
  intros (Ht & Hs & Hl). unfold render_step. now rewrite Ht, Hs, Hl.
Qed.

(** X12: The plain transcript depends on the text, the resolved speaker and the
    language of the tokens only: timing plays no part in it, and an absent
    speaker cannot be told from the speaker [unknown]. *)
Theorem render_tokens_ignores_timing (tokens tokens' : list token) :
  Forall2 same_plain_fields tokens tokens' ->
  render_tokens tokens = render_tokens tokens'.
Proof.
  intros H. unfold render_tokens, render_loop. f_equal. f_equal.
  generalize render_init.
  induction H as [| a b l l' Hab _ IH]; intros st; [reflexivity |].
  cbn [fold_left]. rewrite (@render_step_same_fields st a b Hab). apply IH.
Qed.

Lemma render_tokens_ignores_timing_witness :
  let untimed :=
    {| tok_text := lit "x"; tok_speaker := Some (lit "unknown");
       tok_language := None; tok_start_ms := None; tok_end_ms := Some 7;
       tok_duration_ms := None |} in
  Forall2 same_plain_fields [token_E] [untimed]
  /\ render_tokens [token_E] = render_tokens [untimed].
Proof.
  intros untimed.
  assert (H : Forall2 same_plain_fields [token_E] [untimed]).
  { constructor; [| constructor]. repeat split. }
  split; [exact H |].
  exact (@render_tokens_ignores_timing [token_E] [untimed] H).
Defined.

Lemma join_snoc sep (l : list str) x :
  l <> [] -> join sep (l ++ [x]) = join sep l ++ sep ++ x.
Proof.
  induction l as [| a l IH]; [contradiction |]. intros _.
  destruct l as [| b l].
  - reflexivity.
  - change (join sep ((a :: b :: l) ++ [x]))
      with (a ++ sep ++ join sep ((b :: l) ++ [x])).
    rewrite IH by discriminate.
    change (join sep (a :: b :: l)) with (a ++ sep ++ join sep (b :: l)).
    now rewrite <- !app_assoc.
Qed.

Lemma join_snoc_grow sep (l : list str) x y :
  join sep (l ++ [x ++ y]) = join sep (l ++ [x]) ++ y.
Proof.
  destruct l as [| a l].
  - reflexivity.
  - rewrite !join_snoc by discriminate. now rewrite <- !app_assoc.
Qed.

(** Neighbouring segments with different speakers before the last token
    was read, from the same after it. *)
Lemma distinct_neighbours_before gap_ms l t :
  (forall l1 a b l2,
      group_tokens_by_speaker (l ++ [t]) gap_ms = l1 ++ a :: b :: l2 ->
      seg_speaker a <> seg_speaker b) ->
  forall l1 a b l2,
    group_tokens_by_speaker l gap_ms = l1 ++ a :: b :: l2 ->
    seg_speaker a <> seg_speaker b.
Proof.
  intros Hall l1 a b l2 E.
  assert (Hne : l <> []).
  { intros ->. destruct l1 as [| ? [| ? ?]]; discriminate. }
  destruct (group_nonempty gap_ms Hne) as (front & c & Ef).
  destruct (@group_snoc_cases gap_ms l t front c Ef) as [[_ H] | [_ H]].
  - apply (Hall l1 a b (l2 ++ [new_segment t])). rewrite H.
    change (front ++ [c; new_segment t])
      with (front ++ [c] ++ [new_segment t]).
    rewrite app_assoc, <- Ef, E, <- app_assoc. reflexivity.
  - rewrite Ef in E. apply snoc_split_pair in E.
    destruct E as [(-> & -> & ->) | (l2' & -> & ->)].
    + change (seg_speaker c) with (seg_speaker (extend_segment c t)).
      apply (Hall l1 a (extend_segment c t) []). rewrite H.
      now rewrite <- app_assoc.
    + apply (Hall l1 a b (l2' ++ [extend_segment c t])). rewrite H.
      now rewrite <- app_assoc.
Qed.

Lemma plain_matches_segments gap_ms l :
  Forall (fun t => tok_language t = None) l ->
  (forall l1 a b l2,
      group_tokens_by_speaker l gap_ms = l1 ++ a :: b :: l2 ->
      seg_speaker a <> seg_speaker b) ->
  render_tokens l
  = join (nl ++ nl) (map segment_inline (group_tokens_by_speaker l gap_ms))
  /\ current_language (render_loop l) = None
  /\ current_speaker (render_loop l)
     = option_map seg_speaker (snd (group_loop gap_ms l)).
Proof.
  induction l as [| t l IH] using rev_ind; intros Hlang Hadj.
  - repeat split.
  - apply Forall_app in Hlang. destruct Hlang as [Hl Ht].
    inversion Ht as [| ? ? Hnone _]; subst.
    specialize (IH Hl (@distinct_neighbours_before gap_ms l t Hadj)).
    destruct IH as (Hr & Hcl & Hcs).
    destruct l as [| t0 l0] eqn:El.
    + cbn [app]. unfold render_tokens, render_loop. cbn [fold_left].
      unfold render_step, render_speaker. cbn [render_init current_speaker].
      destruct (opt_str_eq_dec (Some (token_speaker t)) None);
        [discriminate |].
      rewrite Hnone. cbn. rewrite app_nil_r. repeat split.
    + rewrite <- El in *.
      assert (Hne : l <> []) by (rewrite El; discriminate).
      destruct (group_nonempty gap_ms Hne) as (front & c & Ef).
      pose proof (@group_output_state gap_ms l front c Ef) as Est.
      rewrite Est in Hcs. cbn [snd option_map] in Hcs.
      unfold render_tokens in *. rewrite render_loop_snoc.
      unfold group_tokens_by_speaker at 1.
      rewrite group_loop_snoc, Est. cbn [group_step].
      destruct (@group_snoc_cases gap_ms l t front c Ef)
        as [[Hc H] | [Hc H]]; rewrite Hc; cbn [snd option_map].
      * assert (Hd : seg_speaker c <> token_speaker t).
        { apply (Hadj front c (new_segment t) []). exact H. }
        unfold render_step, render_speaker. rewrite Hcs.
        destruct (opt_str_eq_dec (Some (token_speaker t))
                                 (Some (seg_speaker c))) as [E | _];
          [injection E as E; now symmetry in E |].
        rewrite Hnone.
        cbn [render_language text_parts current_speaker current_language].
        repeat split.
        unfold group_finish. cbn [fst snd].
        rewrite !concat_snoc, Hr, Ef.
        rewrite (map_app segment_inline (front ++ [c])). cbn [map].
        rewrite join_snoc
          by (rewrite map_app; cbn [map]; now destruct (map segment_inline front)).
        unfold segment_inline at 3. cbn [new_segment seg_speaker seg_text].
        now rewrite <- !app_assoc.
      * apply orb_false_iff in Hc. destruct Hc as [Hc _].
        unfold speaker_changed in Hc.
        destruct (str_eq_dec (token_speaker t) (seg_speaker c)) as [E | _];
          [| discriminate].
        unfold render_step, render_speaker. rewrite Hcs, E.
        destruct (opt_str_eq_dec (Some (seg_speaker c))
                                 (Some (seg_speaker c))) as [_ | N];
          [| contradiction].
        rewrite Hnone.
        cbn [render_language text_parts current_speaker current_language].
        repeat split; [| exact Hcl | exact Hcs].
        unfold group_finish. cbn [fst snd].
        rewrite concat_snoc, Hr, Ef, !map_app. cbn [map].
        unfold segment_inline at 4. cbn [extend_segment seg_speaker seg_text].
        rewrite app_assoc. rewrite join_snoc_grow. reflexivity.
Qed.

(** X13: When no token carries a language and no two neighbouring segments
    have the same speaker (no segment was split by a pause alone), the plain
    transcript is the segments, each as its header followed by its text,
    separated by blank lines. *)
Theorem plain_transcript_of_segments (tokens : list token) (gap_ms : Z) :
  Forall (fun t => tok_language t = None) tokens ->
  (forall l1 a b l2,
      group_tokens_by_speaker tokens gap_ms = l1 ++ a :: b :: l2 ->
      seg_speaker a <> seg_speaker b) ->
  render_tokens tokens
  = join (nl ++ nl)
         (map segment_inline (group_tokens_by_speaker tokens gap_ms)).
Proof.
  intros Hl Ha. exact (proj1 (@plain_matches_segments gap_ms tokens Hl Ha)).
Qed.

Lemma plain_transcript_of_segments_witness :
  let tokens :=
    [spoken "Hi " "1" 0 500; spoken "there" "1" 600 1000;
     spoken "Yes" "2" 1000 1200] in
  Forall (fun t => tok_language t = None) tokens
  /\ (forall l1 a b l2,
         group_tokens_by_speaker tokens 1500 = l1 ++ a :: b :: l2 ->
         seg_speaker a <> seg_speaker b)
  /\ render_tokens tokens
     = lit "Speaker 1:Hi there" ++ nl ++ nl ++ lit "Speaker 2:Yes".
Proof.
  intros tokens.
  assert (H1 : Forall (fun t => tok_language t = None) tokens)
    by (repeat constructor).
  assert (H2 : forall l1 a b l2,
             group_tokens_by_speaker tokens 1500 = l1 ++ a :: b :: l2 ->
             seg_speaker a <> seg_speaker b).
  { intros l1 a b l2 E.
    destruct l1 as [| x [| y [| z l1]]]; try discriminate E.
    injection E as <- <- _. discriminate. }
  split; [exact H1 |]. split; [exact H2 |].
  exact (@plain_transcript_of_segments tokens 1500 H1 H2).
Defined.

(* ===================================================================== *)
(** * Further properties of the timestamped transcript *)
(* ===================================================================== *)

Lemma forallb_false_exists (A : Type) (f : A -> bool) (l : list A) :
  forallb f l = false -> exists x, In x l /\ f x = false.
Proof.
  induction l as [| x l IH]; [discriminate |].
  cbn [forallb]. destruct (f x) eqn:E.
  - intros H. destruct (IH H) as (y & Hy & Hf). exists y. split; [now right | exact Hf].
  - intros _. exists x. split; [now left | exact E].
Qed.

(** A string that starts and ends with a character that is not white
    space is left alone by [strip]. *)
Lemma strip_fixed res c r a d :
  res = c :: r -> is_space c = false ->
  res = a ++ [d] -> is_space d = false ->
  strip res = res.
Proof.
  intros Hc Hsc Hd Hsd.
  assert (L : lstrip res = res) by (rewrite Hc; now apply lstrip_nonspace).
  assert (R : rstrip res = res) by (rewrite Hd; now apply rstrip_snoc_nonspace).
  unfold strip. now rewrite L, R.
Qed.

Section TimestampedMore.

Variable format_time : Z -> option str.

(** X15: the call raises exactly when the start or the end of some segment
    cannot be formatted; it returns the empty string exactly when every
    segment can be formatted and has no text left after stripping; any other
    result starts with the opening bracket of a time range. *)
Theorem timestamped_empty_iff_all_blank (tokens : list token) :
  let segs := group_tokens_by_speaker tokens DEFAULT_SEGMENT_GAP_MS in
  (render_tokens_with_timestamps format_time tokens = None
   <-> exists s, In s segs
                 /\ (format_time (seg_start_ms s) = None
                     \/ format_time (seg_end_ms s) = None))
  /\ (render_tokens_with_timestamps format_time tokens = Some []
      <-> forall s, In s segs ->
                    strip (seg_text s) = []
                    /\ exists a b,
                         format_time (seg_start_ms s) = Some a
                         /\ format_time (seg_end_ms s) = Some b)
  /\ (forall out,
         render_tokens_with_timestamps format_time tokens = Some out ->
         out = [] \/ exists r, out = lit "[" ++ r).
Proof.
  intros segs.
  pose proof (render_timestamps_exact format_time tokens) as Hr.
  fold segs in Hr.
  assert (Hblank : filter has_text segs = []
                   <-> forall s, In s segs -> strip (seg_text s) = []).
  { split.
    - intros E s Hs.
      destruct (strip (seg_text s)) as [| c r] eqn:Es; [reflexivity |].
      assert (Hin : In s (filter has_text segs)).
      { apply filter_In. split; [exact Hs |].
        unfold has_text. now rewrite Es. }
      rewrite E in Hin. contradiction.
    - intros Hall. destruct (filter has_text segs) as [| k kept] eqn:E;
        [reflexivity |].
      assert (Hin : In k (filter has_text segs)) by (rewrite E; now left).
      apply filter_In in Hin. destruct Hin as [Hin Ht].
      unfold has_text in Ht. now rewrite (Hall k Hin) in Ht. }
  split; [| split].
  - split.
    + intros E. rewrite E in Hr.
      destruct (forallb (segment_formats format_time) segs) eqn:F;
        [discriminate |].
      apply forallb_false_exists in F. destruct F as (s & Hs & Hf).
      exists s. split; [exact Hs |].
      unfold segment_formats, formats in Hf.
      destruct (format_time (seg_start_ms s)); [| now left].
      destruct (format_time (seg_end_ms s)); [discriminate | now right].
    + intros Hbad. apply segments_format_fails in Hbad. now rewrite Hbad in Hr.
  - split.
    + intros E. rewrite E in Hr.
      destruct (forallb (segment_formats format_time) segs) eqn:F;
        [| discriminate].
      injection Hr as Hr.
      assert (Hk : filter has_text segs = []).
      { revert Hr. destruct (filter has_text segs) as [| k kept];
          [reflexivity |]. intros Hr.
        destruct (join_entries_head (time_text format_time) k kept)
          as (r & Hh).
        pose proof (eq_trans Hr Hh) as C. discriminate C. }
      intros s Hs. split; [now apply Hblank |].
      now apply (proj1 (segments_format_iff format_time segs) F).
    + intros Hall.
      assert (F : forallb (segment_formats format_time) segs = true).
      { apply segments_format_iff. intros s Hs. now apply Hall. }
      assert (Hk : filter has_text segs = []).
      { apply Hblank. intros s Hs. now apply Hall. }
      now rewrite F, Hk in Hr.
  - intros out E. rewrite E in Hr.
    destruct (forallb (segment_formats format_time) segs); [| discriminate].
    injection Hr as ->.
    destruct (filter has_text segs) as [| k kept]; [now left |].
    destruct (join_entries_head (time_text format_time) k kept) as (r & Hh).
    right. exists r. exact Hh.
Qed.

(** X16: the timestamped transcript has no white space at either end:
    stripping it again changes nothing. *)
Theorem timestamped_render_is_stripped (tokens : list token) (out : str) :
  render_tokens_with_timestamps format_time tokens = Some out ->
  strip out = out.
Proof.
  rewrite render_timestamps_exact.
  set (segs := group_tokens_by_speaker tokens DEFAULT_SEGMENT_GAP_MS).
  destruct (forallb (segment_formats format_time) segs); [| discriminate].
  intros [= <-].
  pose proof (filter_has_text segs) as Hk.
  destruct (filter has_text segs) as [| k kept]; [reflexivity |].
  destruct (join_entries_head (time_text format_time) k kept) as (r & Hr).
  destruct (join_entries_last (time_text format_time) Hk)
    as (a & d & Hl & Hd).
  exact (@strip_fixed _ 91%N r a d Hr eq_refl Hl Hd).
Qed.

End TimestampedMore.

Lemma timestamped_empty_iff_all_blank_witness :
  (forall s,
      In s (group_tokens_by_speaker [blank_token; blank_token]
                                    DEFAULT_SEGMENT_GAP_MS) ->
      strip (seg_text s) = []
      /\ exists a b,
           format_time_exact (seg_start_ms s) = Some a
           /\ format_time_exact (seg_end_ms s) = Some b)
  /\ render_tokens_with_timestamps format_time_exact
       [blank_token; blank_token] = Some [].
Proof.
  assert (H : forall s,
             In s (group_tokens_by_speaker [blank_token; blank_token]
                                           DEFAULT_SEGMENT_GAP_MS) ->
             strip (seg_text s) = []
             /\ exists a b,
                  format_time_exact (seg_start_ms s) = Some a
                  /\ format_time_exact (seg_end_ms s) = Some b).
  { intros s [<- | []]. split; [reflexivity |].
    eexists _, _. split; vm_compute; reflexivity. }
  split; [exact H |].
  exact (proj2 (proj1 (proj2 (timestamped_empty_iff_all_blank
                                format_time_exact
                                [blank_token; blank_token]))) H).
Defined.

Lemma timestamped_render_is_stripped_witness :
  let tokens := [spoken "  Hi " "1" 0 500] in
  render_tokens_with_timestamps format_time_exact tokens
  = Some (lit "[00:00:00.000 --> 00:00:00.500] Speaker 1:" ++ nl ++ lit "Hi")
  /\ strip (lit "[00:00:00.000 --> 00:00:00.500] Speaker 1:" ++ nl
              ++ lit "Hi")
     = lit "[00:00:00.000 --> 00:00:00.500] Speaker 1:" ++ nl ++ lit "Hi".
Proof.
  intros tokens.
  assert (H : render_tokens_with_timestamps format_time_exact tokens
              = Some (lit "[00:00:00.000 --> 00:00:00.500] Speaker 1:"
                        ++ nl ++ lit "Hi")) by (vm_compute; reflexivity).
  split; [exact H |].
  exact (@timestamped_render_is_stripped format_time_exact tokens _ H).
Defined.

(* ===================================================================== *)
(** * Further properties of the subtitle chunker *)
(* ===================================================================== *)

(** A property of chunks that holds for a chunk of one token and survives
    the addition of a token that passes the duration test holds for every
    chunk. *)
Lemma srt_chunks_forall dur (P : chunk -> Prop) :
  (forall t, P (Chunk (fst (token_time_bounds t))
                      (snd (token_time_bounds t)) [tok_text t])) ->
  (forall c t,
      P c ->
      snd (token_time_bounds t) - ch_start_ms c <= dur ->
      P (Chunk (ch_start_ms c) (snd (token_time_bounds t))
               (ch_tokens c ++ [tok_text t]))) ->
  forall l, Forall P (srt_chunks l dur).
Proof.
  intros Hnew Hadd l.
  assert (H : Forall P (fst (chunk_loop dur l))
              /\ match snd (chunk_loop dur l) with
                 | Some c => P c
                 | None => True
                 end).
  { induction l as [| t l IH] using rev_ind; [split; cbn; auto |].
    rewrite chunk_loop_snoc. specialize (Hnew t).
    destruct (chunk_loop dur l) as [closed [c |]]; destruct IH as [Hf Hc];
      cbn [fst snd] in *; unfold chunk_step.
    - specialize (Hadd c t Hc).
      destruct (token_time_bounds t) as [s e]; cbn [fst snd] in *.
      destruct (Z.leb_spec (e - ch_start_ms c) dur); split; cbn [fst snd];
        auto.
      apply Forall_app. split; [exact Hf | now constructor].
    - destruct (token_time_bounds t) as [s e]; cbn [fst snd] in *.
      split; cbn [fst snd]; auto. }
  unfold srt_chunks. destruct H as [Hf Hc].
  destruct (snd (chunk_loop dur l)) as [c |]; [| exact Hf].
  apply Forall_app. split; [exact Hf | now constructor].
Qed.

Lemma concat_length_lower (A : Type) (l : list (list A)) :
  Forall (fun x => x <> []) l -> (length l <= length (concat l))%nat.
Proof.
  induction 1 as [| x l Hx _ IH]; [cbn; lia |].
  cbn [concat length]. rewrite length_app.
  destruct x; [contradiction | cbn [length]; lia].
Qed.

Lemma chunk_loop_all_fit dur first rest :
  Forall (fun t => snd (token_time_bounds t) - fst (token_time_bounds first)
                   <= dur) rest ->
  chunk_loop dur (first :: rest)
  = ([], Some (Chunk (fst (token_time_bounds first))
                     (snd (token_time_bounds (last rest first)))
                     (map tok_text (first :: rest)))).
Proof.
  induction rest as [| t rest IH] using rev_ind; intros H.
  - unfold chunk_loop. cbn [fold_left chunk_step last map].
    now destruct (token_time_bounds first).
  - apply Forall_app in H. destruct H as [Hr Ht].
    inversion Ht as [| ? ? Hfit _]; subst.
    change (first :: rest ++ [t]) with ((first :: rest) ++ [t]).
    rewrite chunk_loop_snoc, (IH Hr). unfold chunk_step.
    rewrite last_last, map_app. cbn [map ch_start_ms ch_tokens].
    destruct (token_time_bounds t) as [s e]. cbn [fst snd] in *.
    destruct (Z.leb_spec (e - fst (token_time_bounds first)) dur); [| lia].
    reflexivity.
Qed.

Section SubtitleMore.

Variable format_srt_time : Z -> option str.

(** X17: a caption that holds more than one token spans at most
    [chunk_duration_ms] from its start to its end; only a caption made of a
    single token can be longer.  The captions are those of the document when
    there is one. *)
Theorem caption_duration_bound (tokens : list token) (chunk_duration_ms : Z) :
  tokens_to_srt format_srt_time tokens chunk_duration_ms
  = (if forallb (chunk_formats format_srt_time)
                (srt_chunks tokens chunk_duration_ms)
     then Some (captions (time_text format_srt_time) 1
                         (srt_chunks tokens chunk_duration_ms))
     else None)
  /\ Forall (fun c => (exists text, ch_tokens c = [text])
                      \/ ch_end_ms c - ch_start_ms c <= chunk_duration_ms)
            (srt_chunks tokens chunk_duration_ms).
Proof.
  split; [apply tokens_to_srt_exact |].
  apply srt_chunks_forall.
  - intros t. left. exists (tok_text t). reflexivity.
  - intros c t _ H. right. exact H.
Qed.

(** X18: no caption is made of zero tokens, and there are never more captions
    than tokens. *)
Theorem caption_count_bound (tokens : list token) (chunk_duration_ms : Z) :
  Forall (fun c => ch_tokens c <> []) (srt_chunks tokens chunk_duration_ms)
  /\ (length (srt_chunks tokens chunk_duration_ms) <= length tokens)%nat.
Proof.
  assert (H : Forall (fun c => ch_tokens c <> [])
                     (srt_chunks tokens chunk_duration_ms)).
  { apply srt_chunks_forall.
    - discriminate.
    - intros c t _ _. cbn. now destruct (ch_tokens c). }
  split; [exact H |].
  rewrite <- (length_map tok_text tokens),
          <- (srt_chunks_concat tokens chunk_duration_ms).
  rewrite <- (length_map ch_tokens (srt_chunks tokens chunk_duration_ms)).
  apply concat_length_lower.
  apply Forall_forall. intros x Hx. apply in_map_iff in Hx.
  destruct Hx as (c & <- & Hc). rewrite Forall_forall in H. now apply H.
Qed.

(** X19: when every token after the first ends within [chunk_duration_ms] of
    the first token's start, there is a single chunk, from the first token's
    start to the last token's end, with all the texts: the document is that
    one caption, numbered 1, when the formatter returns on both bounds, and
    the call raises when it does not. *)
Theorem single_caption_when_all_fit
  (first : token) (rest : list token) (chunk_duration_ms : Z) :
  Forall (fun t => snd (token_time_bounds t) - fst (token_time_bounds first)
                   <= chunk_duration_ms) rest ->
  tokens_to_srt format_srt_time (first :: rest) chunk_duration_ms
  = match format_srt_time (fst (token_time_bounds first)),
          format_srt_time (snd (token_time_bounds (last rest first))) with
    | Some start, Some end_ =>
        Some (lit "1" ++ [10%N] ++ start ++ lit " --> " ++ end_ ++ [10%N]
                ++ strip (concat (map tok_text (first :: rest))) ++ [10%N])
    | _, _ => None
    end.
Proof.
  intros H. rewrite tokens_to_srt_exact. unfold srt_chunks.
  rewrite (@chunk_loop_all_fit chunk_duration_ms first rest H).
  cbn [fst snd app forallb captions].
  unfold chunk_formats, formats, caption, time_text.
  cbn [ch_start_ms ch_end_ms ch_tokens].
  destruct (format_srt_time (fst (token_time_bounds first))) as [a |];
    destruct (format_srt_time (snd (token_time_bounds (last rest first))))
      as [b |]; reflexivity.
Qed.

(** X20: the document is the empty string only for an empty token list;
    whenever the call returns for a non-empty list, the document starts with
    the caption number 1 on a line of its own. *)
Theorem srt_document_starts_with_one
  (tokens : list token) (chunk_duration_ms : Z) :
  (tokens_to_srt format_srt_time tokens chunk_duration_ms = Some []
   <-> tokens = [])
  /\ (forall doc,
         tokens <> [] ->
         tokens_to_srt format_srt_time tokens chunk_duration_ms = Some doc ->
         exists rest, doc = lit "1" ++ [10%N] ++ rest).
Proof.
  assert (H : forall doc,
             tokens <> [] ->
             tokens_to_srt format_srt_time tokens chunk_duration_ms
             = Some doc ->
             exists rest, doc = lit "1" ++ [10%N] ++ rest).
  { intros doc Hne. rewrite tokens_to_srt_exact.
    pose proof (srt_chunks_concat tokens chunk_duration_ms) as Hc.
    destruct (forallb (chunk_formats format_srt_time)
                      (srt_chunks tokens chunk_duration_ms));
      [| discriminate].
    intros [= <-].
    destruct (srt_chunks tokens chunk_duration_ms) as [| c cs].
    - destruct tokens; [contradiction | discriminate Hc].
    - destruct cs as [| c' cs]; cbn [captions]; unfold caption;
        rewrite <- ?app_assoc; eauto. }
  split; [| exact H].
  split; [| now intros ->].
  intros E. destruct tokens as [| t0 tokens0]; [reflexivity |].
  destruct (H [] ltac:(discriminate) E) as (rest & Hr). discriminate Hr.
Qed.

Lemma srt_step_same_fields dur st a b :
  same_caption_fields a b ->
  srt_step format_srt_time dur st a = srt_step format_srt_time dur st b.
Proof.
  intros (Ht & Hb). unfold srt_step. now rewrite Ht, Hb.
Qed.

(** X21: the subtitle document depends on the text and the resolved time
    bounds of the tokens only: speakers and languages play no part in it. *)
Theorem tokens_to_srt_ignores_speakers
  (tokens tokens' : list token) (chunk_duration_ms : Z) :
  Forall2 same_caption_fields tokens tokens' ->
  tokens_to_srt format_srt_time tokens chunk_duration_ms
  = tokens_to_srt format_srt_time tokens' chunk_duration_ms.
Proof.
  intros H.
  assert (L : forall st,
             srt_loop format_srt_time chunk_duration_ms st tokens
             = srt_loop format_srt_time chunk_duration_ms st tokens').
  { induction H as [| a b l l' Hab _ IH]; intros st; [reflexivity |].
    cbn [srt_loop]. rewrite (@srt_step_same_fields chunk_duration_ms st a b Hab).
    destruct (srt_step format_srt_time chunk_duration_ms st b);
      [apply IH | reflexivity]. }
  unfold tokens_to_srt. rewrite L. now destruct H.
Qed.

End SubtitleMore.

Lemma single_caption_when_all_fit_witness :
  let first := spoken "Hi " "1" 0 500 in
  let rest := [spoken "there" "1" 600 1000; spoken " you " "2" 3500 5000] in
  Forall (fun t => snd (token_time_bounds t) - fst (token_time_bounds first)
                   <= 5000) rest
  /\ tokens_to_srt format_srt_time_exact (first :: rest) 5000
     = Some (lit "1" ++ nl ++ lit "00:00:00,000 --> 00:00:05,000" ++ nl
               ++ lit "Hi there you" ++ nl).
Proof.
  intros first rest.
  assert (H : Forall (fun t => snd (token_time_bounds t)
                               - fst (token_time_bounds first) <= 5000) rest).
  { repeat constructor; intros C; discriminate C. }
  split; [exact H |].
  rewrite (@single_caption_when_all_fit format_srt_time_exact first rest
             5000 H).
  vm_compute. reflexivity.
Defined.

Lemma srt_document_starts_with_one_witness :
  let tokens := [spoken " Hi" "1" 0 400] in
  tokens <> []
  /\ tokens_to_srt format_srt_time_exact tokens 5000
     = Some (lit "1" ++ nl ++ lit "00:00:00,000 --> 00:00:00,400" ++ nl
               ++ lit "Hi" ++ nl)
  /\ exists rest,
       lit "1" ++ nl ++ lit "00:00:00,000 --> 00:00:00,400" ++ nl
         ++ lit "Hi" ++ nl
       = lit "1" ++ [10%N] ++ rest.
Proof.
  intros tokens.
  assert (H : tokens <> []) by discriminate.
  assert (E : tokens_to_srt format_srt_time_exact tokens 5000
              = Some (lit "1" ++ nl ++ lit "00:00:00,000 --> 00:00:00,400"
                        ++ nl ++ lit "Hi" ++ nl))
    by (vm_compute; reflexivity).
  split; [exact H |]. split; [exact E |].
  exact (proj2 (srt_document_starts_with_one format_srt_time_exact
                  tokens 5000) _ H E).
Defined.

Lemma tokens_to_srt_ignores_speakers_witness :
  let a := spoken "Hi" "1" 0 500 in
  let b :=
    {| tok_text := lit "Hi"; tok_speaker := None;
       tok_language := Some (lit "en"); tok_start_ms := None;
       tok_end_ms := None; tok_duration_ms := Some 500 |} in
  Forall2 same_caption_fields [a] [b]
  /\ tokens_to_srt format_srt_time_exact [a] 5000
     = tokens_to_srt format_srt_time_exact [b] 5000.
Proof.
  intros a b.
  assert (H : Forall2 same_caption_fields [a] [b]).
  { constructor; [| constructor]. split; reflexivity. }
  split; [exact H |].
  exact (@tokens_to_srt_ignores_speakers format_srt_time_exact [a] [b] 5000 H).
Defined.

(* ===================================================================== *)
(** * Segmenting the segments *)
(* ===================================================================== *)

Lemma new_segment_of_segment seg :
  seg_speaker seg <> [] -> new_segment (token_of_segment seg) = seg.
Proof.
  intros Hs. destruct seg as [spk start_ms end_ms text]. cbn in *.
  unfold new_segment, token_speaker, token_time_bounds, int_or. cbn.
  destruct spk as [| c spk]; [contradiction |].
  destruct (Z.eqb_spec start_ms 0) as [-> | _]; reflexivity.
Qed.

(** Segments whose speakers are not empty and whose neighbours are kept
    apart by a speaker change or a long pause are left as they are. *)
Lemma group_separated_segments gap_ms segs :
  Forall (fun seg => seg_speaker seg <> []) segs ->
  (forall l1 a b l2,
      segs = l1 ++ a :: b :: l2 ->
      seg_speaker a <> seg_speaker b
      \/ seg_start_ms b - seg_end_ms a > gap_ms) ->
  group_tokens_by_speaker (map token_of_segment segs) gap_ms = segs.
Proof.
  induction segs as [| s segs IH] using rev_ind; intros Hne Hadj;
    [reflexivity |].
  apply Forall_app in Hne. destruct Hne as [Hne Hs].
  inversion Hs as [| ? ? Hs' _]; subst.
  assert (IH' : group_tokens_by_speaker (map token_of_segment segs) gap_ms
                = segs).
  { apply IH; [exact Hne |]. intros l1 a b l2 E.
    apply (Hadj l1 a b (l2 ++ [s])). rewrite E, <- app_assoc. reflexivity. }
  rewrite map_app. cbn [map].
  destruct segs as [| s0 segs0] eqn:El.
  - cbn [map app]. unfold group_tokens_by_speaker, group_loop, group_finish.
    cbn [fold_left group_step fst snd app].
    now rewrite new_segment_of_segment.
  - rewrite <- El in *.
    assert (Hn : segs <> []) by (rewrite El; discriminate).
    destruct (exists_last Hn) as (front & c & Ef).
    rewrite Ef in IH'. rewrite <- Ef in IH' at 1.
    destruct (@group_snoc_cases gap_ms (map token_of_segment segs)
                (token_of_segment s) front c IH') as [[_ H] | [Hc _]].
    + rewrite H, new_segment_of_segment by exact Hs'.
      rewrite Ef, <- app_assoc. reflexivity.
    + exfalso.
      assert (Hsp : token_speaker (token_of_segment s) = seg_speaker s).
      { pose proof (@new_segment_of_segment s Hs') as N.
        apply (f_equal seg_speaker) in N. exact N. }
      assert (Hst : fst (token_time_bounds (token_of_segment s))
                    = seg_start_ms s).
      { pose proof (@new_segment_of_segment s Hs') as N.
        apply (f_equal seg_start_ms) in N. exact N. }
      apply orb_false_iff in Hc. destruct Hc as [Hc Hp].
      unfold speaker_changed in Hc. unfold long_pause in Hp.
      rewrite Hsp in Hc. rewrite Hst in Hp.
      destruct (Hadj front c s []) as [D | D].
      * rewrite Ef, <- app_assoc. reflexivity.
      * destruct (str_eq_dec (seg_speaker s) (seg_speaker c));
          [congruence | discriminate].
      * destruct (Z.gtb_spec (seg_start_ms s - seg_end_ms c) gap_ms);
          [discriminate | lia].
Qed.

(** X9: Segmentation is idempotent: the segments, read back as tokens and
    segmented again with the same [gap_ms], come out unchanged. *)
Theorem segmenting_segments_is_identity (tokens : list token) (gap_ms : Z) :
  group_tokens_by_speaker
    (map token_of_segment (group_tokens_by_speaker tokens gap_ms)) gap_ms
  = group_tokens_by_speaker tokens gap_ms.
Proof.
  apply group_separated_segments.
  - apply (@group_forall gap_ms (fun _ => True)).
    + intros t _. apply token_speaker_nonempty.
    + intros cur t H _. exact H.
    + apply Forall_forall. auto.
  - intros l1 a b l2. apply group_loop_adjacent.
Qed.

(* ===================================================================== *)
(** * One speaker, one language *)
(* ===================================================================== *)

Lemma render_one_block t rest s l :
  token_speaker t = s ->
  tok_language t = Some l ->
  Forall (fun x => token_speaker x = s
                   /\ (tok_language x = Some l \/ tok_language x = None))
         rest ->
  concat (text_parts (render_loop (t :: rest)))
  = speaker_header s ++ language_marker l ++ lstrip (tok_text t)
      ++ concat (map tok_text rest)
  /\ current_speaker (render_loop (t :: rest)) = Some s
  /\ current_language (render_loop (t :: rest)) = Some l.
Proof.
  intros Hs Hl. induction rest as [| x rest IH] using rev_ind; intros H.
  - unfold render_loop. cbn [fold_left].
    unfold render_step, render_speaker. cbn [render_init current_speaker].
    destruct (opt_str_eq_dec (Some (token_speaker t)) None); [discriminate |].
    rewrite Hl, Hs. unfold render_language. cbn [current_language].
    destruct (opt_str_eq_dec (Some l) None); [discriminate |].
    cbn. rewrite !app_nil_r. repeat split.
  - apply Forall_app in H. destruct H as [Hr Hx].
    inversion Hx as [| ? ? [Hxs Hxl] _]; subst.
    destruct (IH Hr) as (Ht & Hcs & Hcl).
    change (t :: rest ++ [x]) with ((t :: rest) ++ [x]).
    rewrite render_loop_snoc. unfold render_step, render_speaker.
    rewrite Hxs, Hcs.
    destruct (opt_str_eq_dec (Some (token_speaker t))
                             (Some (token_speaker t))) as [_ | N];
      [| contradiction].
    unfold render_language. rewrite Hcl.
    assert (Hparts : concat (text_parts (render_loop (t :: rest))
                             ++ [tok_text x])
                     = speaker_header (token_speaker t) ++ language_marker l
                         ++ lstrip (tok_text t)
                         ++ concat (map tok_text (rest ++ [x]))).
    { rewrite concat_snoc, Ht, map_app. cbn [map].
      rewrite concat_snoc, <- !app_assoc. reflexivity. }
    destruct Hxl as [E | E]; rewrite E.
    + destruct (opt_str_eq_dec (Some l) (Some l)) as [_ | N];
        [| contradiction].
      cbn [text_parts current_speaker current_language]. now repeat split.
    + cbn [text_parts current_speaker current_language]. now repeat split.
Qed.

(** X14: Inside one speaker block the language is marked once: when all tokens
    have the same speaker and the first carries a language that the others
    repeat or leave out, the transcript is the header, one marker, the first
    text without its leading white space, and the other texts unchanged. *)
Theorem language_marked_once_per_block
  (t : token) (rest : list token) (s l : str) :
  token_speaker t = s ->
  tok_language t = Some l ->
  Forall (fun x => token_speaker x = s
                   /\ (tok_language x = Some l \/ tok_language x = None))
         rest ->
  render_tokens (t :: rest)
  = speaker_header s ++ language_marker l ++ lstrip (tok_text t)
      ++ concat (map tok_text rest).
Proof.
  intros Hs Hl H. exact (proj1 (@render_one_block t rest s l Hs Hl H)).
Qed.

Lemma language_marked_once_per_block_witness :
  let t := tagged " bonjour" "2" "fr" in
  let rest := [tagged " tout" "2" "fr"; spoken " le monde" "2" 0 0] in
  token_speaker t = lit "2"
  /\ tok_language t = Some (lit "fr")
  /\ Forall (fun x => token_speaker x = lit "2"
                      /\ (tok_language x = Some (lit "fr")
                          \/ tok_language x = None)) rest
  /\ render_tokens (t :: rest)
     = lit "Speaker 2:" ++ nl ++ lit "[fr] bonjour tout le monde".
Proof.
  intros t rest.
  assert (H1 : token_speaker t = lit "2") by reflexivity.
  assert (H2 : tok_language t = Some (lit "fr")) by reflexivity.
  assert (H3 : Forall (fun x => token_speaker x = lit "2"
                                /\ (tok_language x = Some (lit "fr")
                                    \/ tok_language x = None)) rest).
  { constructor; [split; [reflexivity | left; reflexivity] |].
    constructor; [split; [reflexivity | right; reflexivity] | constructor]. }
  split; [exact H1 |]. split; [exact H2 |]. split; [exact H3 |].
  exact (@language_marked_once_per_block t rest (lit "2") (lit "fr") H1 H2 H3).
Defined.

Lemma segment_count_bounds_witness :
  let tokens := [spoken "Hi " "1" 0 500; spoken "there" "1" 600 1000] in
  group_tokens_by_speaker tokens 1500 <> []
  /\ tokens <> [].
Proof.
  intros tokens.
  assert (H : group_tokens_by_speaker tokens 1500 <> []) by discriminate.
  split; [exact H |].
  intros E. apply H.
  exact (proj2 (proj2 (segment_count_bounds tokens 1500)) E).
Defined.
